(** * libcmdapp: the option registry and the argument scanner of [src/app.c]

    A shallow embedding of [cmdapp_init], [cmdapp_set], [cmdapp_search],
    [cmdapp_print_help], [cmdapp_run] and [cmdapp_getargs], and the
    properties of the scanner.

    Conventions of the embedding.
    - A C string lives in a buffer [cbuf]: the bytes of its allocation, the
      final terminator left implicit.  A buffer can hold a NUL before its
      end (the scanner writes one over a '='), so the C string read from it
      is [cstring], the bytes before the first NUL.
    - A [char*] that the scanner stores is a [ptr]: an index into argv and
      an offset into that token.  Bound option values and positional
      arguments are such pointers, so they alias the argument vector.
    - [_argc] is the length of [_argv]; [argv[argc]] is the null pointer.
    - The three constants of [app.h] that the scanner tests are variables
      of the section [Scanner]; the properties hold for every value of them
      unless they say otherwise. *)

From Stdlib Require Import ZArith Ascii Lia.
From stdpp Require Import base list strings.

Local Open Scope Z_scope.

(** ** C strings *)

Abbreviation cbuf := (list ascii).

Definition NUL : ascii := Ascii.zero.

Definition tok (s : string) : cbuf := String.list_ascii_of_string s.

(** [str[k]]: byte [k] of the buffer, the terminator at [k = length]. *)
Definition byte (str : cbuf) (k : nat) : ascii := nth k str NUL.

(** Whether [str[k]] lies inside the allocation (terminator included). *)
Definition readable (str : cbuf) (k : nat) : bool := bool_decide (k ≤ length str)%nat.

(** The C string that starts at the head of a buffer. *)
Fixpoint cstring (str : cbuf) : list ascii :=
  match str with
  | [] => []
  | c :: rest => if bool_decide (c = NUL) then [] else c :: cstring rest
  end.

(** [strchr(str, c)] for [c] other than NUL: the offset of the first [c]. *)
Fixpoint strchr (str : cbuf) (c : ascii) : option nat :=
  match str with
  | [] => None
  | x :: rest =>
      if bool_decide (x = c) then Some 0%nat
      else if bool_decide (x = NUL) then None
      else S <$> strchr rest c
  end.

(** [strcmp(a, b) == 0]. *)
Definition strcmp_eq (a b : cbuf) : bool := bool_decide (cstring a = cstring b).

(** ** Pointers into the argument vector *)

Record ptr := Ptr { p_arg : nat; p_off : nat }.

Definition deref (argv : list cbuf) (p : ptr) : option (list ascii) :=
  (fun str => cstring (drop (p_off p) str)) <$> argv !! p_arg p.

(** ** The data of [app.h] as [app.c] uses it *)

Record cmdopt_t := Cmdopt {
  shorto : ascii;
  longo : option cbuf;
  flags : Z;
  value : option ptr
}.

Record cmdarg_internal_t := Internal {
  result : cmdopt_t;
  description : cbuf;
  conflicts : list nat
}.

(** The fields of [cmdapp_info_t] that [cmdapp_print_help] reads:
    [synopses] is the null pointer or the entries of a null-terminated
    array. *)
Record cmdapp_info_t := Info {
  synopses : option (list cbuf);
  info_description : cbuf
}.

Record cmdapp_t := Cmdapp {
  _argv : list cbuf;
  _mode : Z;
  _capacity : nat;
  _start : list cmdarg_internal_t;
  _args : option (list ptr);
  _info : cmdapp_info_t
}.

Definition _argc (app : cmdapp_t) : nat := length (_argv app).
Definition _length (app : cmdapp_t) : nat := length (_start app).

Definition EXIT_SUCCESS : Z := 0.
Definition EXIT_FAILURE : Z := 1.

(** [uint8_t] assignment. *)
Definition wrap8 (z : Z) : Z := z mod 256.

(** The messages of [eprintf], with the text printed for the option. *)
Inductive diagnostic :=
  | expects_an_argument (name : list ascii)
  | does_not_take_arguments (name : list ascii)
  | unrecognized_option (name : list ascii).

(** How a call of [cmdapp_run] ends. *)
Inductive outcome :=
  | Finished
  | Help
  | Version
  | Error (d : diagnostic)
  | Undefined
  | OutOfFuel.

Definition exit_status (o : outcome) : option Z :=
  match o with
  | Finished | Help | Version => Some EXIT_SUCCESS
  | Error _ => Some EXIT_FAILURE
  | Undefined | OutOfFuel => None
  end.

(** The result of [cmdapp_search]: a registry position, [NULL], or a
    [strcmp] on a null [longo]. *)
Inductive found := Hit (k : nat) | Miss | Fault.

(** One iteration of the loop of [cmdapp_run]: [continue] with a new index
    and mode, or [return]. *)
Inductive step_result :=
  | Next (app : cmdapp_t) (i : nat) (only_args : bool)
  | Return (o : outcome) (app : cmdapp_t).

(** The application state a round leaves behind. *)
Definition app_of (r : step_result) : cmdapp_t :=
  match r with Next app _ _ => app | Return _ app => app end.

(** ** Field updates *)

Definition with_argv (argv : list cbuf) (app : cmdapp_t) : cmdapp_t :=
  Cmdapp argv (_mode app) (_capacity app) (_start app) (_args app) (_info app).

Definition with_start (start : list cmdarg_internal_t) (app : cmdapp_t) : cmdapp_t :=
  Cmdapp (_argv app) (_mode app) (_capacity app) start (_args app) (_info app).

Definition with_args (args : option (list ptr)) (app : cmdapp_t) : cmdapp_t :=
  Cmdapp (_argv app) (_mode app) (_capacity app) (_start app) args (_info app).

Definition on_result (f : cmdopt_t → cmdopt_t) (a : cmdarg_internal_t) : cmdarg_internal_t :=
  Internal (f (result a)) (description a) (conflicts a).

Definition opt_set_value (v : option ptr) (o : cmdopt_t) : cmdopt_t :=
  Cmdopt (shorto o) (longo o) (flags o) v.

Definition opt_or_flags (bits : Z) (o : cmdopt_t) : cmdopt_t :=
  Cmdopt (shorto o) (longo o) (wrap8 (Z.lor (flags o) bits)) (value o).

(** [arg_int->result->value = v] for the entry at position [k]. *)
Definition set_value (k : nat) (v : option ptr) (app : cmdapp_t) : cmdapp_t :=
  with_start (alter (on_result (opt_set_value v)) k (_start app)) app.

(** [arg_int->result->flags |= bits]. *)
Definition or_flags (k : nat) (bits : Z) (app : cmdapp_t) : cmdapp_t :=
  with_start (alter (on_result (opt_or_flags bits)) k (_start app)) app.

(** [APPEND_ARG(arg)]; the growth of the backing store is not observable. *)
Definition APPEND_ARG (arg : ptr) (app : cmdapp_t) : cmdapp_t :=
  with_args (Some (default [] (_args app) ++ [arg])) app.

(** The option behind a handle, and its flags. *)
Definition option_at (app : cmdapp_t) (k : nat) : option cmdopt_t :=
  result <$> _start app !! k.

Definition flags_at (app : cmdapp_t) (k : nat) : Z :=
  from_option flags 0 (option_at app k).

(** ** Registration *)

Definition cmdapp_init (argv : list cbuf) (mode : Z) (info : cmdapp_info_t)
    : cmdapp_t :=
  Cmdapp argv mode 4 [] None info.

Definition cmdapp_append (app : cmdapp_t) (arg_int : cmdarg_internal_t) : cmdapp_t :=
  let capacity :=
    if bool_decide (_capacity app < _length app + 1)%nat
    then (_capacity app + _capacity app / 2)%nat
    else _capacity app in
  Cmdapp (_argv app) (_mode app) capacity (_start app ++ [arg_int]) (_args app)
    (_info app).

(** [cmdapp_set]; [conflicts = None] is the null pointer.  The handle of
    the new option is its position, [_length app] before the call. *)
Definition cmdapp_set (app : cmdapp_t) (short : ascii) (long : option cbuf)
    (fl : Z) (confl : option (list nat)) (descr : cbuf) : cmdapp_t :=
  cmdapp_append app
    (Internal (Cmdopt short long (wrap8 fl) None) descr (default [] confl)).

(** ** Lookup *)

Fixpoint search_short (l : list cmdarg_internal_t) (c : ascii) (k : nat) : found :=
  match l with
  | [] => Miss
  | a :: rest =>
      if bool_decide (shorto (result a) = c) then Hit k
      else search_short rest c (S k)
  end.

Fixpoint search_long (l : list cmdarg_internal_t) (name : cbuf) (k : nat) : found :=
  match l with
  | [] => Miss
  | a :: rest =>
      match longo (result a) with
      | None => Fault
      | Some s => if strcmp_eq s name then Hit k else search_long rest name (S k)
      end
  end.

Definition cmdapp_search (app : cmdapp_t) (short : ascii) (long : option cbuf) : found :=
  match long with
  | None => search_short (_start app) short 0
  | Some name => search_long (_start app) name 0
  end.

Arguments cmdapp_search : simpl never.

(** ** Token classes *)

Definition dash : ascii := "-"%char.

Definition IS_END_OF_FLAGS (str : cbuf) : bool :=
  bool_decide (byte str 0 = dash) && bool_decide (byte str 1 = dash)
  && bool_decide (byte str 2 = NUL).

Definition IS_LONG_FLAG (str : cbuf) : bool :=
  bool_decide (byte str 0 = dash) && bool_decide (byte str 1 = dash).

Definition IS_SHORT_FLAG (str : cbuf) : bool := bool_decide (byte str 0 = dash).

(** [next && next[0] != '-'] *)
Definition usable (next : option cbuf) : bool :=
  match next with
  | Some str => negb (bool_decide (byte str 0 = dash))
  | None => false
  end.

(** A C condition on an integer. *)
Definition truthy (z : Z) : bool := negb (bool_decide (z = 0)).

(** [cmdapp_getargs]: the positional pointers, [None] for [NULL]. *)
Definition cmdapp_getargs (app : cmdapp_t) : option (list ptr) := _args app.

(** The positional arguments as the caller reads them. *)
Definition positionals (app : cmdapp_t) : list (option (list ascii)) :=
  deref (_argv app) <$> default [] (cmdapp_getargs app).

(** The value of an option as the caller reads it: the stored pointer,
    followed in the storage of the argument vector as it is now (the
    scanner and the caller can write into it).  The pointer refers to the
    vector of the scan that bound it: in a state that has since been
    pointed at another vector ([scan]) it no longer denotes what C reads,
    and no property below reads a value there. *)
Definition value_string (app : cmdapp_t) (k : nat) : option (list ascii) :=
  match option_at app k with
  | Some o =>
      match value o with
      | Some p => deref (_argv app) p
      | None => None
      end
  | None => None
  end.

(** ** The help text *)

Definition newline : ascii := "010"%char.
Definition carriage_return : ascii := "013"%char.

(** An information record without synopses. *)
Definition demo_info : cmdapp_info_t := Info None (tok "demo program").

Section Help.

Variable CMDOPT_TAKESARG : Z.

(** The text of one round of the loop of [cmdapp_print_help], lines
    113-122. *)
Definition help_option (arg_int : cmdarg_internal_t) : list ascii :=
  tok "                    " ++ cstring (description arg_int) ++ [carriage_return]
  ++ tok "  -" ++ [shorto (result arg_int)]
  ++ match longo (result arg_int) with
     | Some long => tok ", --" ++ cstring long
     | None => []
     end
  ++ (if truthy (Z.lor (flags (result arg_int)) CMDOPT_TAKESARG)
      then tok "=ARG" else [])
  ++ [newline].

(** The loop [for (i = 0; i < _argc; i++)] of [cmdapp_print_help] from
    index [i] on, [n] rounds: [None] when a round reads [_start[i]] beyond
    the registered options. *)
Fixpoint help_options (start : list cmdarg_internal_t) (i n : nat)
    : option (list ascii) :=
  match n with
  | O => Some []
  | S n =>
      match start !! i with
      | None => None
      | Some arg_int =>
          (λ text, help_option arg_int ++ text) <$> help_options start (S i) n
      end
  end.

Definition help_usage (argv0 : cbuf) (info : cmdapp_info_t) : list ascii :=
  match synopses info with
  | Some (first :: others) =>
      tok "Usage: " ++ cstring argv0 ++ tok " " ++ cstring first ++ [newline]
      ++ concat ((λ synopsis,
                   tok "   or: " ++ cstring argv0 ++ tok " " ++ cstring synopsis
                   ++ [newline]) <$> others)
  | _ => tok "Usage: " ++ cstring argv0 ++ tok " [OPTION]... ARG..." ++ [newline]
  end.

(** [cmdapp_print_help]: the text written to stdout, [None] when the call
    has no defined behaviour ([argv[0]] null, or a read beyond the
    registered options). *)
Definition cmdapp_print_help (info : cmdapp_info_t) (app : cmdapp_t)
    : option (list ascii) :=
  match _argv app !! 0%nat with
  | None => None
  | Some argv0 =>
      let head :=
        help_usage argv0 info ++ [newline]
        ++ cstring (info_description info) ++ [newline] ++ [newline] in
      if bool_decide (_length app = 0%nat) then Some head
      else
        (λ options, head ++ tok "Options: " ++ [newline] ++ options)
          <$> help_options (_start app) 0 (_argc app)
  end.

End Help.

(** What the long lookup of [name] asks of the options it passes: a long
    name, and another one. *)
Definition other_long_name (name : cbuf) (o : cmdopt_t) : Prop :=
  ∃ s, longo o = Some s ∧ cstring s ≠ cstring name.

(** Option [k] is registered under the long name [name] and every option
    registered before it has another long name. *)
Definition first_under_long_name (app : cmdapp_t) (name : cbuf) (k : nat)
    (o : cmdopt_t) : Prop :=
  option_at app k = Some o
  ∧ (∃ s, longo o = Some s ∧ cstring s = cstring name)
  ∧ ∀ j o', (j < k)%nat → option_at app j = Some o' → other_long_name name o'.

(** Option [k] has no long name and every option registered before it has
    a long name other than [name]: the lookup of [name] comes to compare
    the null long name of option [k]. *)
Definition null_long_name_met (app : cmdapp_t) (name : cbuf) (k : nat) : Prop :=
  (∃ o, option_at app k = Some o ∧ longo o = None)
  ∧ ∀ j o', (j < k)%nat → option_at app j = Some o' → other_long_name name o'.

(** No option is registered under the long name [name]. *)
Definition no_option_named (app : cmdapp_t) (name : cbuf) : Prop :=
  Forall (λ a, ∀ s, longo (result a) = Some s → cstring s ≠ cstring name)
    (_start app).

(** Every option has a long name. *)
Definition all_long_names (app : cmdapp_t) : Prop :=
  Forall (λ a, is_Some (longo (result a))) (_start app).

(** The calls of [cmdapp_print_help] that return: an [argv[0]] to print,
    and no option or no more argv entries than options. *)
Definition help_defined (app : cmdapp_t) : Prop :=
  (1 ≤ _argc app)%nat ∧ (_length app = 0%nat ∨ (_argc app ≤ _length app)%nat).

(** ** The scanner *)

Section Scanner.

(** The constants of [app.h]. *)
Variable CMDOPT_TAKESARG : Z.
Variable CMDOPT_EXISTS : Z.
Variable CMDAPP_MODE_SHORTARG : Z.

(** The caller's reading of an option after a scan. *)
Definition seen (o : cmdopt_t) : bool := truthy (Z.land (flags o) CMDOPT_EXISTS).

Definition takes_argument (o : cmdopt_t) : bool :=
  truthy (Z.land (flags o) CMDOPT_TAKESARG).

(** Lines 182-215: a token that starts with two dashes.  On `--help` the
    scanner calls [cmdapp_print_help] and returns [EXIT_SUCCESS] when that
    call returns, and has left defined behaviour when it does not (the
    help reads [_start] up to [_argc]); the text goes to stdout.
    [cmdapp_print_version] writes the caller's strings and the year of
    [_info] and reads nothing of the registry or of argv. *)
Definition long_flag (app : cmdapp_t) (i : nat) (current : cbuf) : step_result :=
  let arg := strchr current "="%char in
  let current' :=
    match arg with Some p => <[p := NUL]> current | None => current end in
  let app := with_argv (<[i := current']> (_argv app)) app in
  match cmdapp_search app NUL (Some (drop 2 current')) with
  | Hit k =>
      if truthy (Z.lor (flags_at app k) CMDOPT_TAKESARG) then
        match arg with
        | None => Return (Error (expects_an_argument (cstring current'))) app
        | Some p =>
            Next (or_flags k CMDOPT_EXISTS (set_value k (Some (Ptr i (S p))) app))
                 (S i) false
        end
      else
        match arg with
        | Some _ => Return (Error (does_not_take_arguments (cstring current'))) app
        | None => Next (or_flags k CMDOPT_EXISTS app) (S i) false
        end
  | Miss =>
      if strcmp_eq current' (tok "--help") then
        match cmdapp_print_help CMDOPT_TAKESARG (_info app) app with
        | Some _ => Return Help app
        | None => Return Undefined app
        end
      else if strcmp_eq current' (tok "--version") then Return Version app
      else Return (Error (unrecognized_option (cstring current'))) app
  | Fault => Return Undefined app
  end.

(** Lines 218-238: a single-dash token when [_mode | CMDAPP_MODE_SHORTARG]
    is non-zero. *)
Definition short_arg (app : cmdapp_t) (i : nat) (current : cbuf)
    (next : option cbuf) : step_result :=
  let name := [dash; byte current 1] in
  match cmdapp_search app (byte current 1) None with
  | Hit k =>
      let app := set_value k None app in
      if truthy (Z.lor (flags_at app k) CMDOPT_TAKESARG) then
        let app := set_value k (Some (Ptr i 2)) app in
        if usable next then
          Next (or_flags k CMDOPT_EXISTS (set_value k (Some (Ptr (S i) 0)) app))
               (S (S i)) false
        else Return (Error (expects_an_argument name)) app
      else if negb (readable current 2) then Return Undefined app
      else if negb (bool_decide (byte current 2 = NUL)) || usable next then
        Return (Error (does_not_take_arguments name)) app
      else Next (or_flags k CMDOPT_EXISTS app) (S i) false
  | Miss => Return (Error (unrecognized_option name)) app
  | Fault => Return Undefined app
  end.

(** Lines 240-257: the loop [for (j = 1; current[j]; j++)], one round per
    element of [js]; [i0] is the index of [current], [i] the loop variable
    of the outer loop, which a round may increment. *)
Fixpoint multi_flag (js : list ascii) (app : cmdapp_t) (i0 i : nat)
    (current : cbuf) (next : option cbuf) : step_result :=
  match js with
  | [] => Next app (S i) false
  | _ :: js =>
      let name := [dash; byte current 1] in
      match cmdapp_search app (byte current 1) None with
      | Hit k =>
          let app := set_value k (Some (Ptr i0 2)) app in
          if negb (readable current 4) then Return Undefined app
          else if bool_decide (byte current 4 = NUL) then
            if usable next then
              multi_flag js (set_value k (Some (Ptr (S i0) 0)) app) i0 (S i)
                         current next
            else Return (Error (expects_an_argument name)) app
          else multi_flag js app i0 i current next
      | Miss => Return (Error (unrecognized_option name)) app
      | Fault => Return Undefined app
      end
  end.

(** The body of the loop of [cmdapp_run], lines 171-261. *)
Definition step (app : cmdapp_t) (i : nat) (only_args : bool) : step_result :=
  match _argv app !! i with
  | None => Return Undefined app
  | Some current =>
      if only_args then Next (APPEND_ARG (Ptr i 0) app) (S i) true
      else
        let next := _argv app !! S i in
        if IS_END_OF_FLAGS current then Next app (S i) true
        else if IS_LONG_FLAG current then long_flag app i current
        else if IS_SHORT_FLAG current then
          if truthy (Z.lor (_mode app) CMDAPP_MODE_SHORTARG)
          then short_arg app i current next
          else multi_flag (cstring (drop 1 current)) app i i current next
        else Next (APPEND_ARG (Ptr i 0) app) (S i) false
  end.

(** The loop [for (i = 0; i < _argc; i++)] from index [i] on. *)
Fixpoint loop (fuel : nat) (app : cmdapp_t) (i : nat) (only_args : bool)
    : outcome * cmdapp_t :=
  if bool_decide (_argc app ≤ i)%nat then (Finished, app)
  else
    match fuel with
    | O => (OutOfFuel, app)
    | S fuel =>
        match step app i only_args with
        | Next app i only_args => loop fuel app i only_args
        | Return o app => (o, app)
        end
    end.

(** The rest of the loop from index [i] on, with the fuel it needs. *)
Definition scan_from (app : cmdapp_t) (i : nat) (only_args : bool)
    : outcome * cmdapp_t :=
  loop (_argc app - i) app i only_args.

(** [cmdapp_run]: the positional buffer is emptied, then the loop runs. *)
Definition cmdapp_run (app : cmdapp_t) : outcome * cmdapp_t :=
  loop (_argc app) (with_args (Some []) app) 0 false.

(** The states the loop passes through: [reaches app i only app' i' only']
    when rounds that all [continue] lead from the first state to the
    second. *)
Inductive reaches : cmdapp_t → nat → bool → cmdapp_t → nat → bool → Prop :=
  | reaches_here app i only : reaches app i only app i only
  | reaches_round app i only app1 i1 only1 app2 i2 only2 :
      (i < _argc app)%nat →
      step app i only = Next app1 i1 only1 →
      reaches app1 i1 only1 app2 i2 only2 →
      reaches app i only app2 i2 only2.

(** A scan of another argument vector against the same registry: the
    caller points the application at [argv] and runs it.  The options keep
    the flags and the value pointers of the scans before; those pointers
    still refer to the earlier vector, so only flags, names and positional
    arguments are compared across two scans. *)
Definition scan (app : cmdapp_t) (argv : list cbuf) : outcome * cmdapp_t :=
  cmdapp_run (with_argv argv app).

End Scanner.

(** ** Registries and header values used in the examples *)

(** Values for the constants of [app.h] where a statement is evaluated:
    distinct bits for the option flags, a non-zero short-argument mode. *)
Module Sample.
Definition TAKESARG : Z := 1.
Definition EXISTS : Z := 2.
Definition SHORTARG : Z := 1.
End Sample.

(** The scanner at these values. *)
Abbreviation run := (cmdapp_run Sample.TAKESARG Sample.EXISTS Sample.SHORTARG).
Abbreviation scan2 := (scan Sample.TAKESARG Sample.EXISTS Sample.SHORTARG).
Abbreviation step1 := (step Sample.TAKESARG Sample.EXISTS Sample.SHORTARG).

(** [cmdapp_init] followed by one [cmdapp_set] of `-v`, `--verbose`. *)
Definition verbose_app (argv : list cbuf) (mode fl : Z) : cmdapp_t :=
  cmdapp_set (cmdapp_init argv mode demo_info) "v"%char (Some (tok "verbose")) fl None
    (tok "explain what is being done").

(** [cmdapp_init] followed by one [cmdapp_set] of `-o`, `--out`. *)
Definition out_app (argv : list cbuf) (mode fl : Z) : cmdapp_t :=
  cmdapp_set (cmdapp_init argv mode demo_info) "o"%char (Some (tok "out")) fl None
    (tok "write the result to ARG").

(** Three options `-a`, `-b`, `-c` with long names `--all`, `--brief`,
    `--count`. *)
Definition abc_app (argv : list cbuf) (mode fa fb fc : Z) : cmdapp_t :=
  cmdapp_set
    (cmdapp_set
       (cmdapp_set (cmdapp_init argv mode demo_info) "a"%char (Some (tok "all")) fa None (tok "all"))
       "b"%char (Some (tok "brief")) fb None (tok "brief"))
    "c"%char (Some (tok "count")) fc None (tok "count").

(** The pointers to the tokens [i], [i+1], ... of an argument vector of
    [n] more tokens. *)
Definition token_ptrs (i n : nat) : list ptr := (fun j => Ptr j 0) <$> seq i n.

(** The flags of the registered options, in registration order. *)
Definition registry_flags (app : cmdapp_t) : list Z :=
  (λ a, flags (result a)) <$> _start app.

(** The names of the registered options: what [cmdapp_set] fixes and a scan
    never writes. *)
Definition names_of (l : list cmdarg_internal_t) : list (ascii * option cbuf) :=
  (λ a, (shorto (result a), longo (result a))) <$> l.

(** Two application states that differ at most in the [flags] and [value]
    fields of their options. *)
Definition agree (app1 app2 : cmdapp_t) : Prop :=
  _argv app1 = _argv app2 ∧ _mode app1 = _mode app2 ∧ _args app1 = _args app2
  ∧ names_of (_start app1) = names_of (_start app2).

Definition agree_result (r1 r2 : step_result) : Prop :=
  match r1, r2 with
  | Next app1 i1 only1, Next app2 i2 only2 =>
      agree app1 app2 ∧ i1 = i2 ∧ only1 = only2
  | Return o1 app1, Return o2 app2 => o1 = o2 ∧ agree app1 app2
  | _, _ => False
  end.

(** [cmdapp_init] followed by one [cmdapp_set] of `-q` with a null long
    name. *)
Definition quiet_app (argv : list cbuf) (mode fl : Z) : cmdapp_t :=
  cmdapp_set (cmdapp_init argv mode demo_info) "q"%char None fl None (tok "say nothing").

(** [cmdapp_init], one [cmdapp_set] of `-q` with a null long name, then
    one of `-o`, `--out`. *)
Definition quiet_out_app (argv : list cbuf) (mode fq fo : Z) : cmdapp_t :=
  cmdapp_set (quiet_app argv mode fq) "o"%char (Some (tok "out")) fo None
    (tok "write the result to ARG").

(** ** Registration in sequence, and the rest of [app.c] *)

(** The arguments of one call of [cmdapp_set]. *)
Record registration := Registration {
  reg_short : ascii;
  reg_long : option cbuf;
  reg_flags : Z;
  reg_conflicts : option (list nat);
  reg_description : cbuf
}.

Definition register (app : cmdapp_t) (r : registration) : cmdapp_t :=
  cmdapp_set app (reg_short r) (reg_long r) (reg_flags r) (reg_conflicts r)
    (reg_description r).

(** [cmdapp_init] followed by one [cmdapp_set] per element of [rs]. *)
Definition registered (argv : list cbuf) (mode : Z) (info : cmdapp_info_t)
    (rs : list registration) : cmdapp_t :=
  foldl register (cmdapp_init argv mode info) rs.

(** [_argvlen]: the number of entries before the first null pointer of an
    array of pointers; [None] when the array holds no null pointer and the
    loop runs off its end. *)
Fixpoint _argvlen {A : Type} (argv : list (option A)) : option nat :=
  match argv with
  | [] => None
  | None :: _ => Some 0%nat
  | Some _ :: rest => S <$> _argvlen rest
  end.

(** The array [arg_int->conflicts] as [cmdapp_set] allocates and fills it
    (lines 80-93), the argument being the null pointer ([None]) or an array
    of handles: [conflict_count] entries, the null pointer alone in the
    first case, the first [conflict_count] entries of the argument in the
    second. *)
Definition stored_conflicts (conflicts : option (list (option nat)))
    : option (list (option nat)) :=
  match conflicts with
  | None => Some [None]
  | Some arr => (λ conflict_count, take conflict_count arr) <$> _argvlen arr
  end.

(** [app->_mode = m], and its effect on the result of a round. *)
Definition with_mode (m : Z) (app : cmdapp_t) : cmdapp_t :=
  Cmdapp (_argv app) m (_capacity app) (_start app) (_args app) (_info app).

Definition map_result (f : cmdapp_t → cmdapp_t) (r : step_result) : step_result :=
  match r with
  | Next app i only_args => Next (f app) i only_args
  | Return o app => Return o (f app)
  end.

(** Flags that fit the [uint8_t] field. *)
Definition byte_flags (app : cmdapp_t) : Prop :=
  Forall (λ f, 0 ≤ f < 256) (registry_flags app).

(** Lists of flags, option by option, where the second keeps every bit of
    the first. *)
Definition flags_grow (fs fs' : list Z) : Prop :=
  Forall2 (λ f f', 0 ≤ f' < 256 ∧ Z.land f' f = f) fs fs'.

(** What a scan has no business changing: the mode, the capacity, and for
    each option its names, description and conflicts. *)
Definition frame (app : cmdapp_t)
    : Z * nat * list (ascii * option cbuf * cbuf * list nat) :=
  (_mode app, _capacity app,
   (λ a, (shorto (result a), longo (result a), description a, conflicts a))
     <$> _start app).

(** * Properties *)

(** ** When [cmdapp_print_help] returns *)

Section HelpDefined.

Context (CMDOPT_TAKESARG : Z).

Local Abbreviation help_options := (help_options CMDOPT_TAKESARG).
Local Abbreviation cmdapp_print_help := (cmdapp_print_help CMDOPT_TAKESARG).

Lemma help_options_beyond start n : ∀ i,
  (0 < n)%nat → (length start < i + n)%nat → help_options start i n = None.
Proof.
  induction n as [|n IH]; intros i Hn Hlen; [lia|]. simpl.
  destruct (start !! i) as [a|] eqn:Hi; [|done].
  apply lookup_lt_Some in Hi. rewrite IH; [done|lia|lia].
Qed.

Lemma help_options_take start n : ∀ i,
  (i + n ≤ length start)%nat →
  is_Some (help_options start i n)
  ∧ ∀ m, (i + n ≤ m)%nat → help_options (take m start) i n = help_options start i n.
Proof.
  induction n as [|n IH]; intros i Hlen; simpl; [split; [by eexists|done]|].
  destruct (lookup_lt_is_Some_2 start i) as [a Ha]; [lia|].
  destruct (IH (S i)) as [[text Htext] Hsame]; [lia|].
  rewrite Ha, Htext. split; [by eexists|].
  intros m Hm. rewrite lookup_take_lt, Ha by lia.
  rewrite Hsame by lia. by rewrite Htext.
Qed.

Lemma cmdapp_print_help_defined info app :
  is_Some (cmdapp_print_help info app) ↔ help_defined app.
Proof.
  unfold cmdapp_print_help, help_defined, _argc, _length.
  destruct (_argv app !! 0%nat) as [argv0|] eqn:Ha.
  - apply lookup_lt_Some in Ha.
    case_bool_decide as Hz.
    + split; [intros _; split; [lia|by left]|by eexists].
    + rewrite fmap_is_Some. split.
      * intros Hsome. split; [lia|]. right.
        destruct (decide (length (_argv app) ≤ length (_start app))%nat); [done|].
        rewrite help_options_beyond in Hsome by lia. by destruct Hsome.
      * intros [_ [?|Hle]]; [done|].
        by destruct (help_options_take (_start app) (length (_argv app)) 0).
  - apply lookup_ge_None in Ha. split; [by intros [? ?]|]. intros [? _]. lia.
Qed.

(** The two ways [cmdapp_print_help] can end, as a test on the state. *)
Lemma help_branch {A : Type} info app (returned undefined : A) :
  match cmdapp_print_help info app with
  | Some _ => returned
  | None => undefined
  end = if bool_decide (help_defined app) then returned else undefined.
Proof.
  pose proof (cmdapp_print_help_defined info app) as Hdef.
  destruct (cmdapp_print_help info app) as [text|]; case_bool_decide as Hd; auto.
  - exfalso. apply Hd, Hdef. by eexists.
  - apply Hdef in Hd. by destruct Hd.
Qed.

End HelpDefined.

(** ** The scanner *)

Section Properties.

Context (CMDOPT_TAKESARG CMDOPT_EXISTS CMDAPP_MODE_SHORTARG : Z).

Local Abbreviation seen := (seen CMDOPT_EXISTS).
Local Abbreviation takes_argument := (takes_argument CMDOPT_TAKESARG).
Local Abbreviation long_flag := (long_flag CMDOPT_TAKESARG CMDOPT_EXISTS).
Local Abbreviation short_arg := (short_arg CMDOPT_TAKESARG CMDOPT_EXISTS).
Local Abbreviation step := (step CMDOPT_TAKESARG CMDOPT_EXISTS CMDAPP_MODE_SHORTARG).
Local Abbreviation loop := (loop CMDOPT_TAKESARG CMDOPT_EXISTS CMDAPP_MODE_SHORTARG).
Local Abbreviation scan_from :=
  (scan_from CMDOPT_TAKESARG CMDOPT_EXISTS CMDAPP_MODE_SHORTARG).
Local Abbreviation cmdapp_run :=
  (cmdapp_run CMDOPT_TAKESARG CMDOPT_EXISTS CMDAPP_MODE_SHORTARG).
Local Abbreviation scan := (scan CMDOPT_TAKESARG CMDOPT_EXISTS CMDAPP_MODE_SHORTARG).
Local Abbreviation reaches :=
  (reaches CMDOPT_TAKESARG CMDOPT_EXISTS CMDAPP_MODE_SHORTARG).

(** ** The loop: every round moves forward and keeps the length of argv *)

Lemma multi_flag_next js app i0 i current next app' i' only' :
  multi_flag js app i0 i current next = Next app' i' only' →
  length (_argv app') = length (_argv app) ∧ (i < i')%nat ∧ only' = false
  ∧ _argv app' = _argv app ∧ _args app' = _args app.
Proof.
  revert app i. induction js as [|j js IH]; intros app i; simpl.
  - intros [= <- <- <-]. repeat split; lia.
  - destruct (cmdapp_search app (byte current 1) None); try discriminate.
    destruct (negb (readable current 4)); try discriminate.
    destruct (bool_decide (byte current 4 = NUL)).
    + destruct (usable next); try discriminate.
      intros H. apply IH in H. simpl in H. destruct H as (?&?&?&?&?).
      repeat split; auto; lia.
    + intros H. apply IH in H. simpl in H. exact H.
Qed.

Lemma long_flag_next app i current app' i' only' :
  long_flag app i current = Next app' i' only' →
  length (_argv app') = length (_argv app) ∧ i' = S i ∧ only' = false
  ∧ _args app' = _args app.
Proof.
  unfold long_flag.
  destruct (cmdapp_search _ _ _); try discriminate.
  - destruct (truthy _); destruct (strchr current "="%char);
      try discriminate; intros [= <- <- <-]; simpl;
      rewrite length_insert; auto.
  - repeat case_match; discriminate.
Qed.

Lemma short_arg_next app i current next app' i' only' :
  short_arg app i current next = Next app' i' only' →
  _argv app' = _argv app ∧ (i < i')%nat ∧ only' = false
  ∧ _args app' = _args app.
Proof.
  unfold short_arg.
  destruct (cmdapp_search _ _ _); try discriminate.
  repeat case_match; try discriminate; intros [= <- <- <-]; simpl;
    repeat split; auto; lia.
Qed.

Lemma step_next app i only app' i' only' :
  step app i only = Next app' i' only' →
  length (_argv app') = length (_argv app) ∧ (i < i')%nat.
Proof.
  unfold step. destruct (_argv app !! i) as [current|]; try discriminate.
  destruct only.
  { intros [= <- <- <-]. simpl. split; auto. }
  destruct (IS_END_OF_FLAGS current).
  { intros [= <- <- <-]. split; auto. }
  destruct (IS_LONG_FLAG current).
  { intros H. apply long_flag_next in H. destruct H as (?&->&_). split; auto. }
  destruct (IS_SHORT_FLAG current).
  - destruct (truthy _).
    + intros H. apply short_arg_next in H. destruct H as (->&?&_). split; auto.
    + intros H. apply multi_flag_next in H. destruct H as (?&?&_). split; auto.
  - intros [= <- <- <-]. simpl. split; auto.
Qed.

(** Fuel beyond the number of tokens left does not change the result. *)
Lemma loop_fuel fuel fuel' app i only :
  (_argc app - i ≤ fuel)%nat → (_argc app - i ≤ fuel')%nat →
  loop fuel app i only = loop fuel' app i only.
Proof.
  revert fuel' app i only.
  induction fuel as [|fuel IH]; intros fuel' app i only Hf Hf'.
  - destruct fuel'; simpl; case_bool_decide; auto; lia.
  - destruct fuel'; simpl; case_bool_decide; auto; try lia.
    destruct (step app i only) as [app1 i1 only1|] eqn:Hs; auto.
    apply step_next in Hs. destruct Hs as [Hlen Hlt].
    apply IH; unfold _argc in *; lia.
Qed.

(** The loop, one round at a time. *)
Lemma scan_from_unfold app i only :
  scan_from app i only =
  if bool_decide (_argc app ≤ i)%nat then (Finished, app)
  else match step app i only with
       | Next app' i' only' => scan_from app' i' only'
       | Return o app' => (o, app')
       end.
Proof.
  unfold scan_from.
  destruct (_argc app - i)%nat as [|n] eqn:Hn; simpl; case_bool_decide; auto; try lia.
  destruct (step app i only) as [app1 i1 only1|] eqn:Hs; auto.
  apply step_next in Hs. destruct Hs as [Hlen Hlt].
  apply loop_fuel; unfold _argc in *; lia.
Qed.

Lemma cmdapp_run_scan_from app :
  cmdapp_run app = scan_from (with_args (Some []) app) 0 false.
Proof.
  unfold cmdapp_run, scan_from. simpl.
  f_equal. unfold _argc. simpl. lia.
Qed.

(** What a round returns with is a help or version request, an error or
    undefined behaviour. *)
Lemma step_return app i only o app' :
  step app i only = Return o app' →
  o = Help ∨ o = Version ∨ (∃ d, o = Error d) ∨ o = Undefined.
Proof.
  assert (Hm : ∀ js a i0 j cur nx, multi_flag js a i0 j cur nx = Return o app' →
               (∃ d, o = Error d) ∨ o = Undefined).
  { induction js as [|c js IH]; intros a i0 j cur nx; simpl; try discriminate.
    repeat case_match; try discriminate; try (intros [= <- <-]; eauto; fail);
      apply IH. }
  unfold step, long_flag, short_arg.
  repeat case_match; try discriminate;
    try (intros [= <- <-]; eauto 6; fail).
  intros Hmf. apply Hm in Hmf. tauto.
Qed.

(** The loop never stops for lack of fuel: [cmdapp_run] returns. *)
Lemma scan_from_returns n : ∀ app i only,
  (_argc app - i ≤ n)%nat → (scan_from app i only).1 ≠ OutOfFuel.
Proof.
  induction n as [|n IH]; intros app i only Hn; rewrite scan_from_unfold;
    case_bool_decide; simpl; try discriminate; try lia.
  destruct (step app i only) as [app1 i1 only1|o app1] eqn:Hs; simpl.
  - apply step_next in Hs. destruct Hs as [Hlen Hlt].
    apply IH. unfold _argc in *. lia.
  - apply step_return in Hs. destruct Hs as [->|[->|[[d ->]| ->]]]; discriminate.
Qed.

Lemma cmdapp_run_returns app : (cmdapp_run app).1 ≠ OutOfFuel.
Proof. rewrite cmdapp_run_scan_from. by eapply scan_from_returns. Qed.

(** ** The states a scan passes through *)

(** From a state the loop reaches, the rest of the scan is the scan. *)
Lemma reaches_scan_from app i only app' i' only' :
  reaches app i only app' i' only' →
  scan_from app i only = scan_from app' i' only'.
Proof.
  induction 1 as [|app i only app1 i1 only1 app2 i2 only2 Hlt Hs _ IH]; auto.
  rewrite scan_from_unfold, bool_decide_false by lia. by rewrite Hs.
Qed.

Lemma cmdapp_run_reaches app0 app i only :
  reaches (with_args (Some []) app0) 0 false app i only →
  cmdapp_run app0 = scan_from app i only.
Proof. intros Hr. rewrite cmdapp_run_scan_from. by apply reaches_scan_from. Qed.

Lemma step_argv_other app i only j :
  j ≠ i → _argv (app_of (step app i only)) !! j = _argv app !! j.
Proof.
  assert (Hm : ∀ js a i0 k cur nx,
            _argv (app_of (multi_flag js a i0 k cur nx)) = _argv a).
  { induction js as [|c js IH]; intros a i0 k cur nx; simpl; auto.
    repeat case_match; simpl; auto; by rewrite IH. }
  intros Hj. unfold step, long_flag, short_arg.
  repeat case_match; simpl; rewrite ?Hm; auto;
    by rewrite list_lookup_insert_ne.
Qed.

Lemma long_flag_error_flags app i current o app' :
  long_flag app i current = Return o app' →
  _args app' = _args app ∧ _start app' = _start app.
Proof.
  unfold long_flag. repeat case_match; try discriminate; by intros [= <- <-].
Qed.

Lemma multi_flag_args js : ∀ app i0 i current next,
  _args (app_of (multi_flag js app i0 i current next)) = _args app.
Proof.
  induction js as [|j js IH]; intros app i0 i current next; simpl; auto.
  repeat case_match; simpl; auto; by rewrite IH.
Qed.

(** The positional buffer exists from the start of a scan to its end. *)
Lemma step_args_Some app i only :
  is_Some (_args app) → is_Some (_args (app_of (step app i only))).
Proof.
  intros Hsome. unfold step. repeat case_match; simpl; auto.
  - destruct (long_flag app i _) as [a j b|o a] eqn:Hl; simpl.
    + apply long_flag_next in Hl. destruct Hl as (_&_&_&->). done.
    + apply long_flag_error_flags in Hl. destruct Hl as [-> _]. done.
  - unfold short_arg. repeat case_match; simpl; auto.
  - by rewrite multi_flag_args.
Qed.

Lemma reaches_args_Some app i only app' i' only' :
  reaches app i only app' i' only' → is_Some (_args app) → is_Some (_args app').
Proof.
  induction 1 as [|app i only app1 i1 only1 app2 i2 only2 Hlt Hs _ IH]; auto.
  intros Hsome. apply IH.
  pose proof (step_args_Some app i only Hsome) as Hn. by rewrite Hs in Hn.
Qed.

(** The loop only moves forward, and the tokens it has not come to yet are
    the caller's. *)
Lemma reaches_later app i only app' i' only' :
  reaches app i only app' i' only' →
  (i ≤ i')%nat ∧ length (_argv app') = length (_argv app)
  ∧ ∀ j, (i' ≤ j)%nat → _argv app' !! j = _argv app !! j.
Proof.
  induction 1 as [|app i only app1 i1 only1 app2 i2 only2 Hlt Hs _ IH].
  - repeat split; auto.
  - destruct IH as (Hle & Hlen & Hsame).
    destruct (step_next _ _ _ _ _ _ Hs) as [Hlen1 Hlt1].
    repeat split; [lia|congruence|].
    intros j Hj. rewrite Hsame by done.
    pose proof (step_argv_other app i only j) as Ho. rewrite Hs in Ho.
    apply Ho. lia.
Qed.

Lemma reaches_drop app i only app' i' only' :
  reaches app i only app' i' only' →
  ∀ n, (i' ≤ n)%nat → drop n (_argv app') = drop n (_argv app).
Proof.
  intros Hr n Hn. destruct (reaches_later _ _ _ _ _ _ Hr) as (_ & _ & Hsame).
  apply list_eq. intros j. rewrite !lookup_drop. apply Hsame. lia.
Qed.

(** ** Positional-only mode and plain tokens *)

Lemma with_args_same app l : _args app = Some l → with_args (Some l) app = app.
Proof. destruct app; simpl; by intros ->. Qed.

Lemma IS_SHORT_FLAG_false current :
  IS_SHORT_FLAG current = false →
  IS_END_OF_FLAGS current = false ∧ IS_LONG_FLAG current = false.
Proof.
  unfold IS_SHORT_FLAG, IS_END_OF_FLAGS, IS_LONG_FLAG. intros ->. auto.
Qed.

(** Once [only_args] is set every remaining token is appended. *)
Lemma scan_from_only_args n : ∀ app i l,
  (_argc app - i)%nat = n → _args app = Some l →
  scan_from app i true =
  (Finished, with_args (Some (l ++ token_ptrs i n)) app).
Proof.
  induction n as [|n IH]; intros app i l Hn Hl; rewrite scan_from_unfold;
    case_bool_decide; try lia.
  - unfold token_ptrs. simpl. rewrite app_nil_r. by rewrite with_args_same.
  - unfold step.
    destruct (_argv app !! i) as [current|] eqn:Hi.
    2: { apply lookup_ge_None in Hi. unfold _argc in *. lia. }
    rewrite (IH _ _ (l ++ [Ptr i 0])).
    + unfold token_ptrs. simpl. by rewrite <- app_assoc.
    + unfold _argc in *. simpl. lia.
    + unfold APPEND_ARG. simpl. by rewrite Hl.
Qed.

(** Tokens that do not start with a dash are appended in order. *)
Lemma scan_from_plain n : ∀ app i l,
  (_argc app - i)%nat = n → _args app = Some l →
  (∀ j current, (i ≤ j)%nat → _argv app !! j = Some current →
                IS_SHORT_FLAG current = false) →
  scan_from app i false =
  (Finished, with_args (Some (l ++ token_ptrs i n)) app).
Proof.
  induction n as [|n IH]; intros app i l Hn Hl Hplain; rewrite scan_from_unfold;
    case_bool_decide; try lia.
  - unfold token_ptrs. simpl. rewrite app_nil_r. by rewrite with_args_same.
  - unfold step.
    destruct (_argv app !! i) as [current|] eqn:Hi.
    2: { apply lookup_ge_None in Hi. unfold _argc in *. lia. }
    pose proof (Hplain i current (le_n _) Hi) as Hs.
    destruct (IS_SHORT_FLAG_false _ Hs) as [-> ->]. rewrite Hs.
    rewrite (IH _ _ (l ++ [Ptr i 0])).
    + unfold token_ptrs. simpl. by rewrite <- app_assoc.
    + unfold _argc in *. simpl. lia.
    + unfold APPEND_ARG. simpl. by rewrite Hl.
    + intros j c Hj. simpl. apply Hplain. lia.
Qed.

Lemma deref_token_ptrs_from argv i :
  deref argv <$> token_ptrs i (length argv - i)
  = (λ t, Some (cstring t)) <$> drop i argv.
Proof.
  unfold token_ptrs. rewrite <- list_fmap_compose.
  apply list_eq. intros j. rewrite !list_lookup_fmap, lookup_drop.
  destruct (argv !! (i + j)%nat) as [t|] eqn:Hj; simpl.
  - apply lookup_lt_Some in Hj as Hlt.
    rewrite lookup_seq_lt by lia. simpl. unfold deref. simpl. by rewrite Hj.
  - apply lookup_ge_None in Hj. rewrite lookup_seq_ge; auto. lia.
Qed.

Lemma deref_token_ptrs argv :
  deref argv <$> token_ptrs 0 (length argv) = (λ t, Some (cstring t)) <$> argv.
Proof.
  pose proof (deref_token_ptrs_from argv 0) as H.
  by rewrite Nat.sub_0_r, drop_0 in H.
Qed.

Lemma cstring_no_NUL (s : cbuf) : NUL ∉ s → cstring s = s.
Proof.
  induction s as [|c s IH]; simpl; auto. intros Hn.
  apply not_elem_of_cons in Hn. destruct Hn as [Hc Hs].
  case_bool_decide; [congruence|]. by rewrite IH.
Qed.

(** ** Long options: the split at the first '=' *)

(** Overwriting a byte of a token does not change whether the help
    returns. *)
Lemma help_defined_with_argv app i current :
  bool_decide (help_defined (with_argv (<[i := current]> (_argv app)) app))
  = bool_decide (help_defined app).
Proof.
  apply bool_decide_ext. unfold help_defined, _argc, _length. simpl.
  by rewrite length_insert.
Qed.

Lemma with_argv_same app i current :
  _argv app !! i = Some current → with_argv (<[i := current]> (_argv app)) app = app.
Proof. intros Hi. rewrite list_insert_id by done. by destruct app. Qed.

Lemma search_long_cstring l name1 name2 k :
  cstring name1 = cstring name2 → search_long l name1 k = search_long l name2 k.
Proof.
  intros Hn. revert k. induction l as [|a l IH]; intros k; simpl; auto.
  destruct (longo (result a)); auto. unfold strcmp_eq. rewrite Hn.
  case_bool_decide; auto.
Qed.

Lemma strchr_None (s : cbuf) c : c ∉ s → strchr s c = None.
Proof.
  induction s as [|x s IH]; simpl; auto. intros Hc.
  apply not_elem_of_cons in Hc. destruct Hc as [Hx Hs].
  case_bool_decide; [congruence|]. case_bool_decide; auto.
  by rewrite IH.
Qed.

Lemma strchr_app (s rest : cbuf) c :
  c ∉ s → NUL ∉ s → strchr (s ++ c :: rest) c = Some (length s).
Proof.
  induction s as [|x s IH]; simpl; intros Hc Hn.
  - by rewrite bool_decide_true.
  - apply not_elem_of_cons in Hc. destruct Hc as [Hx Hs].
    apply not_elem_of_cons in Hn. destruct Hn as [Hx0 Hs0].
    rewrite !bool_decide_false by congruence. by rewrite IH.
Qed.


Lemma cstring_app_NUL (s rest : cbuf) : NUL ∉ s → cstring (s ++ NUL :: rest) = s.
Proof.
  induction s as [|x s IH]; simpl; intros Hn; auto.
  apply not_elem_of_cons in Hn. destruct Hn as [Hx Hs].
  rewrite bool_decide_false by congruence. by rewrite IH.
Qed.

Lemma insert_app_NUL (s rest : cbuf) c :
  <[length s := NUL]> (s ++ c :: rest) = s ++ NUL :: rest.
Proof.
  rewrite insert_app_r_alt by lia. by rewrite Nat.sub_diag.
Qed.

(** ** C2: argument vectors without flags *)

(** C2, as the code has it.  For every registry and every argument vector in
    which no token starts with a dash, [cmdapp_run] succeeds and the
    positional list holds every token of argv in order, left to right.  The
    loop starts at index 0, so the program name [argv[0]] is classified
    like any other token and is the first positional argument; the claim
    excludes it. *)
Theorem C2_plain_argv_all_positional app :
  Forall (λ t, IS_SHORT_FLAG t = false) (_argv app) →
  cmdapp_run app = (Finished, with_args (Some (token_ptrs 0 (_argc app))) app)
  ∧ positionals (cmdapp_run app).2 = (λ t, Some (cstring t)) <$> _argv app.
Proof.
  intros Hplain.
  assert (Hrun : cmdapp_run app =
                 (Finished, with_args (Some (token_ptrs 0 (_argc app))) app)).
  { rewrite cmdapp_run_scan_from.
    rewrite (scan_from_plain (_argc app) _ 0 []); simpl; auto.
    - unfold _argc. simpl. lia.
    - intros j current _ Hj. rewrite Forall_lookup in Hplain. eauto. }
  split; auto. rewrite Hrun. unfold positionals. simpl.
  apply deref_token_ptrs.
Qed.

(** ** C7: the end-of-options marker *)

Lemma scan_from_end_of_options app i current l :
  _argv app !! i = Some current →
  IS_END_OF_FLAGS current = true →
  _args app = Some l →
  scan_from app i false =
  (Finished, with_args (Some (l ++ token_ptrs (S i) (_argc app - S i))) app).
Proof.
  intros Hi Hend Hl. rewrite scan_from_unfold.
  case_bool_decide as Hle.
  { apply lookup_lt_Some in Hi. unfold _argc in Hle. lia. }
  unfold step. rewrite Hi, Hend.
  by apply scan_from_only_args.
Qed.

(** C7, amended.  When a scan, still classifying flags, reaches a token
    that is exactly two dashes, the scan succeeds; the marker is not added
    to the positional list, and every token after it is appended verbatim,
    in order, whatever it looks like (`-x`, `--y`, or two dashes again):
    the list is what was collected before the marker followed by all the
    caller's tokens behind the marker.  Neither the registry nor argv
    changes from the marker on. *)
Theorem C7_end_of_options_marker app0 app i current :
  reaches (with_args (Some []) app0) 0 false app i false →
  _argv app !! i = Some current →
  IS_END_OF_FLAGS current = true →
  cmdapp_run app0 =
    (Finished,
     with_args (Some (default [] (_args app) ++ token_ptrs (S i) (_argc app - S i)))
       app)
  ∧ positionals (cmdapp_run app0).2 =
      positionals app ++ ((λ t, Some (cstring t)) <$> drop (S i) (_argv app0)).
Proof.
  intros Hr Hi Hend.
  destruct (reaches_args_Some _ _ _ _ _ _ Hr) as [l Hl]; [by eexists|].
  assert (Hrun : cmdapp_run app0 =
            (Finished,
             with_args (Some (default [] (_args app)
                              ++ token_ptrs (S i) (_argc app - S i))) app)).
  { rewrite (cmdapp_run_reaches _ _ _ _ Hr), Hl. simpl.
    by eapply scan_from_end_of_options. }
  split; [done|]. rewrite Hrun. unfold positionals, cmdapp_getargs. simpl.
  rewrite fmap_app. f_equal. unfold _argc.
  rewrite deref_token_ptrs_from.
  pose proof (reaches_drop _ _ _ _ _ _ Hr (S i)) as Hd. simpl in Hd.
  rewrite Hd by lia. done.
Qed.

(** ** C9: `--help` and `--version` *)

(** The lookup of a long name hits the first option that has it, provided
    every option before it has a long name. *)
Lemma search_long_first name l : ∀ k0 k,
  search_long l name k0 = Hit k ↔
  ∃ i a s, k = (k0 + i)%nat ∧ l !! i = Some a ∧ longo (result a) = Some s
           ∧ cstring s = cstring name
           ∧ ∀ j b, (j < i)%nat → l !! j = Some b →
                    ∃ s', longo (result b) = Some s' ∧ cstring s' ≠ cstring name.
Proof.
  induction l as [|a l IH]; intros k0 k; simpl.
  - split; [done|]. by intros (i & b & s & _ & ? & _).
  - destruct (longo (result a)) as [sa|] eqn:Hla.
    + unfold strcmp_eq. case_bool_decide as Ha.
      * split.
        -- intros [= <-]. exists 0%nat, a, sa.
           split; [lia|]. split; [done|]. split; [done|]. split; [done|].
           intros j b Hj. lia.
        -- intros (i & b & s & -> & Hi & _ & _ & Hfirst).
           destruct i as [|i]; [f_equal; lia|].
           destruct (Hfirst 0%nat a) as (s' & Hs' & Hne); [lia|done|].
           congruence.
      * fold (strcmp_eq sa name). rewrite IH. split.
        -- intros (i & b & s & -> & Hi & Hb & Hs & Hfirst).
           exists (S i), b, s.
           split; [lia|]. split; [done|]. split; [done|]. split; [done|].
           intros [|j] b' Hj; simpl.
           ++ intros [= <-]. by exists sa.
           ++ apply Hfirst. lia.
        -- intros (i & b & s & -> & Hi & Hb & Hs & Hfirst).
           destruct i as [|i]; simpl in Hi; [congruence|].
           exists i, b, s.
           split; [lia|]. split; [done|]. split; [done|]. split; [done|].
           intros j b' Hj Hl. apply (Hfirst (S j) b'); [lia|done].
    + split; [done|].
      intros (i & b & s & -> & Hi & Hb & _ & Hfirst).
      destruct i as [|i]; simpl in Hi; [congruence|].
      destruct (Hfirst 0%nat a) as (s' & Hs' & _); [lia|done|]. congruence.
Qed.

(** The lookup of a long name is a [strcmp] on the null pointer when an
    option without a long name comes before any option of that name. *)
Lemma search_long_Fault name l : ∀ k0,
  search_long l name k0 = Fault ↔
  ∃ i a, l !! i = Some a ∧ longo (result a) = None
         ∧ ∀ j b, (j < i)%nat → l !! j = Some b →
                  ∃ s', longo (result b) = Some s' ∧ cstring s' ≠ cstring name.
Proof.
  induction l as [|a l IH]; intros k0; simpl.
  - split; [done|]. by intros (i & b & ? & _).
  - destruct (longo (result a)) as [sa|] eqn:Hla.
    + unfold strcmp_eq. case_bool_decide as Ha.
      * split; [done|]. intros (i & b & Hi & Hb & Hfirst).
        destruct i as [|i]; simpl in Hi; [congruence|].
        destruct (Hfirst 0%nat a) as (s' & Hs' & Hne); [lia|done|]. congruence.
      * fold (strcmp_eq sa name). rewrite IH. split.
        -- intros (i & b & Hi & Hb & Hfirst). exists (S i), b.
           split; [done|]. split; [done|].
           intros [|j] b' Hj; simpl.
           ++ intros [= <-]. by exists sa.
           ++ apply Hfirst. lia.
        -- intros (i & b & Hi & Hb & Hfirst).
           destruct i as [|i]; simpl in Hi; [congruence|].
           exists i, b. split; [done|]. split; [done|].
           intros j b' Hj Hl. apply (Hfirst (S j) b'); [lia|done].
    + split; [|done]. intros _. exists 0%nat, a.
      split; [done|]. split; [done|]. intros j b Hj. lia.
Qed.

Lemma cmdapp_search_first app name k o :
  first_under_long_name app name k o → cmdapp_search app NUL (Some name) = Hit k.
Proof.
  intros (Ho & (s & Hs & Hname) & Hfirst). unfold cmdapp_search, option_at in *.
  apply search_long_first. apply fmap_Some in Ho. destruct Ho as (a & Ha & ->).
  exists k, a, s. split; [done|]. split; [done|]. split; [done|]. split; [done|].
  intros j b Hj Hb. apply (Hfirst j); [done|]. by rewrite Hb.
Qed.

Lemma cmdapp_search_null app name k :
  null_long_name_met app name k → cmdapp_search app NUL (Some name) = Fault.
Proof.
  intros ((o & Ho & Hnull) & Hfirst). unfold cmdapp_search, option_at in *.
  apply search_long_Fault. apply fmap_Some in Ho. destruct Ho as (a & Ha & ->).
  exists k, a. split; [done|]. split; [done|].
  intros j b Hj Hb. apply (Hfirst j); [done|]. by rewrite Hb.
Qed.

(** When no option has the name looked for, the lookup compares it with
    the long name of every option: it misses if they all have one, and is
    a [strcmp] on the null pointer otherwise. *)
Lemma search_long_unnamed name l : ∀ k,
  Forall (λ a, ∀ s, longo (result a) = Some s → cstring s ≠ cstring name) l →
  search_long l name k =
    if bool_decide (Forall (λ a, is_Some (longo (result a))) l)
    then Miss else Fault.
Proof.
  induction l as [|a l IH]; intros k Hall; cbn [search_long].
  - by rewrite bool_decide_true.
  - apply Forall_cons in Hall. destruct Hall as [Ha Hall].
    destruct (longo (result a)) as [s|] eqn:Hs.
    + unfold strcmp_eq. rewrite bool_decide_false by (by apply Ha).
      fold (strcmp_eq s name). rewrite (IH _ Hall).
      apply (f_equal (λ b : bool, if b then Miss else Fault)).
      apply bool_decide_ext. rewrite Forall_cons, Hs. split; [|tauto].
      intros Hl. split; [by eexists|done].
    + rewrite bool_decide_false; [done|].
      intros [[s Hsome] _]%Forall_cons. congruence.
Qed.

Lemma cmdapp_search_unnamed app name :
  no_option_named app name →
  cmdapp_search app NUL (Some name) =
    if bool_decide (all_long_names app) then Miss else Fault.
Proof. intros Hno. unfold cmdapp_search. by apply search_long_unnamed. Qed.


(** An option registered without a long name makes the lookup of any long
    name that is not found before it a [strcmp] on the null pointer. *)
Lemma search_long_null a l name k :
  longo (result a) = None → search_long (a :: l) name k = Fault.
Proof. simpl. by intros ->. Qed.

(** A long token without '=' leaves argv as it is and is looked up by the
    text after the two dashes. *)
Lemma step_long_no_value app i current :
  _argv app !! i = Some current →
  IS_END_OF_FLAGS current = false → IS_LONG_FLAG current = true →
  strchr current "="%char = None →
  step app i false =
  match cmdapp_search app NUL (Some (drop 2 current)) with
  | Hit k =>
      if truthy (Z.lor (flags_at app k) CMDOPT_TAKESARG)
      then Return (Error (expects_an_argument (cstring current))) app
      else Next (or_flags k CMDOPT_EXISTS app) (S i) false
  | Miss =>
      if strcmp_eq current (tok "--help") then
        if bool_decide (help_defined app) then Return Help app
        else Return Undefined app
      else if strcmp_eq current (tok "--version") then Return Version app
      else Return (Error (unrecognized_option (cstring current))) app
  | Fault => Return Undefined app
  end.
Proof.
  intros Hi Hend Hlong Heq. unfold step. rewrite Hi, Hend, Hlong.
  unfold long_flag. rewrite Heq, help_branch. by rewrite with_argv_same.
Qed.

(** C9, as the code has it.  Let a scan reach a token `--help` or
    `--version`.  While no option is registered under that long name, the
    lookup compares the name with the long name of every option.  If every
    option has a long name, the lookup misses: `--version` prints the
    version and the scan ends at once with [EXIT_SUCCESS], in the state it
    had on reaching the token, the remaining tokens unprocessed; `--help`
    calls [cmdapp_print_help], which returns only when the registry is
    empty or holds at least [argc] options, and the scan then ends the same
    way with [EXIT_SUCCESS]; with fewer options the help reads beyond the
    registry and the scan has undefined behaviour.  If some option has no
    long name, the lookup is a [strcmp] on the null pointer and the scan
    has undefined behaviour.  So the scan exits with [EXIT_SUCCESS] exactly
    when every option has a long name and, for `--help`, the help returns.
    When the name is registered, with a long name on every option before
    it, the token is resolved against the registry like any other long
    option and nothing is printed. *)
Theorem C9_help_version_short_circuit app0 app i current :
  reaches (with_args (Some []) app0) 0 false app i false →
  _argv app !! i = Some current →
  current = tok "--help" ∨ current = tok "--version" →
  (no_option_named app (drop 2 current) →
   cmdapp_run app0 =
     (if bool_decide (all_long_names app)
      then if bool_decide (current = tok "--help")
           then if bool_decide (help_defined app) then Help else Undefined
           else Version
      else Undefined, app)
   ∧ (exit_status (cmdapp_run app0).1 = Some EXIT_SUCCESS ↔
      all_long_names app ∧ (current = tok "--help" → help_defined app)))
  ∧ (∀ k o, first_under_long_name app (drop 2 current) k o →
     step app i false =
       if truthy (Z.lor (flags o) CMDOPT_TAKESARG)
       then Return (Error (expects_an_argument current)) app
       else Next (or_flags k CMDOPT_EXISTS app) (S i) false).
Proof.
  intros Hr Hi Hcur.
  assert (Hstep := step_long_no_value app i current Hi).
  assert (Hlt : ¬ (_argc app ≤ i)%nat).
  { apply lookup_lt_Some in Hi. unfold _argc. lia. }
  split.
  - intros Hno.
    assert (Hscan : cmdapp_run app0 =
              (if bool_decide (all_long_names app)
               then if bool_decide (current = tok "--help")
                    then if bool_decide (help_defined app) then Help else Undefined
                    else Version
               else Undefined, app)).
    { rewrite (cmdapp_run_reaches _ _ _ _ Hr).
      rewrite scan_from_unfold, bool_decide_false by done.
      rewrite Hstep by (by destruct Hcur as [-> | ->]).
      rewrite (cmdapp_search_unnamed _ _ Hno).
      destruct (bool_decide (all_long_names app)); [|done].
      destruct Hcur as [-> | ->]; simpl;
        by destruct (bool_decide (help_defined app)). }
    split; [done|]. rewrite Hscan. simpl.
    destruct Hcur as [-> | ->]; simpl;
      repeat case_bool_decide; simpl; split; try done; try tauto;
      intros [? ?]; try done; tauto.
  - intros k o Hfirst.
    rewrite Hstep by (by destruct Hcur as [-> | ->]).
    rewrite (cmdapp_search_first _ _ _ _ Hfirst).
    destruct Hfirst as (Ho & _). unfold flags_at. rewrite Ho.
    by destruct Hcur as [-> | ->].
Qed.

(** ** C5: long options that take an argument *)

Lemma truthy_lor_of_land f bits : truthy (Z.land f bits) = true → truthy (Z.lor f bits) = true.
Proof.
  unfold truthy. rewrite !negb_true_iff, !bool_decide_eq_false.
  intros Hland Hlor. apply Z.lor_eq_0_iff in Hlor. destruct Hlor as [-> _].
  by rewrite Z.land_0_l in Hland.
Qed.

Lemma flags_at_option app k o : option_at app k = Some o → flags_at app k = flags o.
Proof. unfold flags_at. by intros ->. Qed.

(** A long token with a '=' at offset [p]: the '=' is overwritten in argv
    and the option found is bound to the text behind it. *)
Lemma step_long_value app i current p :
  _argv app !! i = Some current →
  IS_END_OF_FLAGS current = false → IS_LONG_FLAG current = true →
  strchr current "="%char = Some p →
  let current' := <[p := NUL]> current in
  let app1 := with_argv (<[i := current']> (_argv app)) app in
  step app i false =
  match cmdapp_search app NUL (Some (drop 2 current')) with
  | Hit k =>
      if truthy (Z.lor (flags_at app k) CMDOPT_TAKESARG)
      then Next (or_flags k CMDOPT_EXISTS (set_value k (Some (Ptr i (S p))) app1))
                (S i) false
      else Return (Error (does_not_take_arguments (cstring current'))) app1
  | Miss =>
      if strcmp_eq current' (tok "--help") then
        if bool_decide (help_defined app) then Return Help app1
        else Return Undefined app1
      else if strcmp_eq current' (tok "--version") then Return Version app1
      else Return (Error (unrecognized_option (cstring current'))) app1
  | Fault => Return Undefined app1
  end.
Proof.
  intros Hi Hend Hlong Heq. simpl. unfold step. rewrite Hi, Hend, Hlong.
  unfold long_flag. rewrite Heq, help_branch, help_defined_with_argv.
  reflexivity.
Qed.

Lemma option_at_bound app k i p o :
  option_at app k = Some o →
  option_at (or_flags k CMDOPT_EXISTS (set_value k (Some p) (with_argv i app))) k
  = Some (opt_or_flags CMDOPT_EXISTS (opt_set_value (Some p) o)).
Proof.
  unfold option_at. simpl. intros Ho.
  destruct (_start app !! k) as [a|] eqn:Ha; simplify_eq/=.
  rewrite !list_lookup_alter_eq, Ha. reflexivity.
Qed.

(** C5, as the code has it.  Let a scan reach a token `--name` or
    `--name=v`, where `name` is the long name of a registered option that
    takes an argument.  If every option registered before it has a long
    name (another one), the lookup finds the option, and then: the round
    fails with "expects an argument" (MissingArgument) if and only if the
    token carries no '=', and the scan returns that error at once; with
    `--name=v` the round succeeds, the scan moves to the next token, and
    the option is bound to exactly `v`.  If an option without a long name
    is registered before it, behind options of other long names, the
    lookup compares the name with the null pointer and the scan has
    undefined behaviour, with or without a value: it neither binds `v` nor
    reports an error. *)
Theorem C5_long_option_inline_value app0 app i k o (name rest : cbuf) :
  reaches (with_args (Some []) app0) 0 false app i false →
  _argv app !! i = Some (dash :: dash :: name ++ rest) →
  name ≠ [] → "="%char ∉ name → NUL ∉ name →
  rest = [] ∨ (∃ v, rest = "="%char :: v) →
  option_at app k = Some o → (∃ s, longo o = Some s ∧ cstring s = name) →
  takes_argument o = true →
  ((∀ j o', (j < k)%nat → option_at app j = Some o' → other_long_name name o') →
   (rest = [] ↔
    ∃ app', step app i false =
            Return (Error (expects_an_argument (dash :: dash :: name))) app')
   ∧ (rest = [] →
      cmdapp_run app0 = (Error (expects_an_argument (dash :: dash :: name)), app))
   ∧ (∀ v, rest = "="%char :: v →
      ∃ app', step app i false = Next app' (S i) false
              ∧ value <$> option_at app' k = Some (Some (Ptr i (3 + length name)))
              ∧ value_string app' k = Some (cstring v)))
  ∧ (∀ j, null_long_name_met app name j →
     (cmdapp_run app0).1 = Undefined
     ∧ ∀ j', value <$> option_at (cmdapp_run app0).2 j' = value <$> option_at app j').
Proof.
  intros Hr Hi Hne Heq Hnul Hrest Ho (s & Hs & Hname) Htakes.
  assert (Hlong : IS_LONG_FLAG (dash :: dash :: name ++ rest) = true) by done.
  assert (Hend : IS_END_OF_FLAGS (dash :: dash :: name ++ rest) = false).
  { destruct name as [|c name]; [done|]. unfold IS_END_OF_FLAGS, byte. simpl.
    apply not_elem_of_cons in Hnul. destruct Hnul as [Hc _].
    by rewrite bool_decide_false by congruence. }
  assert (Hlt : ¬ (_argc app ≤ i)%nat).
  { apply lookup_lt_Some in Hi. unfold _argc. lia. }
  assert (Hnoeq : rest = [] →
            strchr (dash :: dash :: name ++ rest) "="%char = None).
  { intros ->. rewrite app_nil_r. apply strchr_None.
    rewrite !not_elem_of_cons. repeat split; done. }
  assert (Hchr : ∀ v, rest = "="%char :: v →
            strchr (dash :: dash :: name ++ rest) "="%char
            = Some (S (S (length name)))).
  { intros v ->. simpl. by rewrite strchr_app. }
  split.
  - intros Hfirst.
    assert (Hk : cmdapp_search app NUL (Some name) = Hit k).
    { apply (cmdapp_search_first _ _ _ o). split; [done|]. split; [|done].
      exists s. split; [done|]. by rewrite Hname, cstring_no_NUL. }
    assert (Htr : truthy (Z.lor (flags_at app k) CMDOPT_TAKESARG) = true).
    { rewrite (flags_at_option _ _ _ Ho). by apply truthy_lor_of_land. }
    assert (Hnone : rest = [] → step app i false =
              Return (Error (expects_an_argument (dash :: dash :: name))) app).
    { intros Hnil.
      rewrite (step_long_no_value app i _ Hi Hend Hlong (Hnoeq Hnil)).
      subst rest. rewrite app_nil_r. simpl. rewrite drop_0, Hk, Htr. simpl.
      by rewrite cstring_no_NUL. }
    assert (Hsome : ∀ v, rest = "="%char :: v →
              ∃ app', step app i false = Next app' (S i) false
                ∧ value <$> option_at app' k = Some (Some (Ptr i (3 + length name)))
                ∧ value_string app' k = Some (cstring v)).
    { intros v Hv.
      rewrite (step_long_value app i _ _ Hi Hend Hlong (Hchr v Hv)).
      subst rest. simpl. rewrite insert_app_NUL.
      unfold cmdapp_search in *.
      rewrite (search_long_cstring _ _ name), Hk, Htr.
      2: { rewrite drop_0, cstring_app_NUL by done. by rewrite cstring_no_NUL. }
      eexists. split; [reflexivity|].
      unfold value_string. rewrite (option_at_bound _ _ _ _ _ Ho). simpl.
      split; [done|]. unfold deref. simpl.
      rewrite list_lookup_insert_eq by (by eapply lookup_lt_Some). simpl.
      rewrite (cons_middle NUL name v), app_assoc.
      rewrite drop_app_length'; [done|]. rewrite length_app. simpl. lia. }
    split; [|split; [|exact Hsome]].
    + split.
      * intros Hnil. eexists. by apply Hnone.
      * intros [app' Hstep]. destruct Hrest as [Hnil|[v Hv]]; [done|].
        destruct (Hsome v Hv) as (app2 & Hnext & _). congruence.
    + intros Hnil. rewrite (cmdapp_run_reaches _ _ _ _ Hr).
      rewrite scan_from_unfold, bool_decide_false by done.
      by rewrite (Hnone Hnil).
  - intros j Hnull.
    pose proof (cmdapp_search_null _ _ _ Hnull) as Hfault.
    rewrite (cmdapp_run_reaches _ _ _ _ Hr).
    rewrite scan_from_unfold, bool_decide_false by done.
    destruct Hrest as [Hnil|[v Hv]].
    + rewrite (step_long_no_value app i _ Hi Hend Hlong (Hnoeq Hnil)).
      subst rest. rewrite app_nil_r. simpl. rewrite drop_0, Hfault. done.
    + rewrite (step_long_value app i _ _ Hi Hend Hlong (Hchr v Hv)).
      subst rest. simpl. rewrite insert_app_NUL.
      unfold cmdapp_search in *.
      rewrite (search_long_cstring _ _ name), Hfault; [done|].
      rewrite drop_0, cstring_app_NUL by done. by rewrite cstring_no_NUL.
Qed.

(** ** C10: the scan writes into argv, and values point into it *)

Lemma multi_flag_argv js : ∀ app i0 i current next,
  _argv (app_of (multi_flag js app i0 i current next)) = _argv app.
Proof.
  induction js as [|j js IH]; intros app i0 i current next; simpl; auto.
  repeat case_match; simpl; auto; by rewrite IH.
Qed.

Lemma short_arg_argv app i current next :
  _argv (app_of (short_arg app i current next)) = _argv app.
Proof. unfold short_arg. repeat case_match; reflexivity. Qed.

Lemma long_flag_argv app i current :
  _argv (app_of (long_flag app i current)) =
  <[i := match strchr current "="%char with
         | Some p => <[p := NUL]> current
         | None => current
         end]> (_argv app).
Proof. unfold long_flag. repeat case_match; reflexivity. Qed.


Lemma search_long_Hit l name : ∀ k0 k,
  search_long l name k0 = Hit k → (k0 ≤ k < k0 + length l)%nat.
Proof.
  induction l as [|a l IH]; intros k0 k; simpl; try discriminate.
  destruct (longo (result a)); try discriminate.
  destruct (strcmp_eq _ _).
  - intros [= <-]. lia.
  - intros Hs. apply IH in Hs. lia.
Qed.

Lemma search_short_Hit l c : ∀ k0 k,
  search_short l c k0 = Hit k → (k0 ≤ k < k0 + length l)%nat.
Proof.
  induction l as [|a l IH]; intros k0 k; simpl; try discriminate.
  case_bool_decide.
  - intros [= <-]. lia.
  - intros Hs. apply IH in Hs. lia.
Qed.

Lemma cmdapp_search_Hit app c long k :
  cmdapp_search app c long = Hit k → ∃ o, option_at app k = Some o.
Proof.
  unfold cmdapp_search, option_at. intros Hs.
  assert (Hk : (k < length (_start app))%nat).
  { destruct long; [apply search_long_Hit in Hs|apply search_short_Hit in Hs]; lia. }
  apply lookup_lt_is_Some in Hk. destruct Hk as [a ->]. by eexists.
Qed.


(** ** C6: short options that take an argument *)

Lemma IS_LONG_FLAG_false current :
  IS_LONG_FLAG current = false → IS_END_OF_FLAGS current = false.
Proof. unfold IS_LONG_FLAG, IS_END_OF_FLAGS. by intros ->. Qed.

(** C6, as the code has it.  In short-argument mode, let the scan reach a
    single-dash token whose first character names a registered option that
    takes an argument.  The characters that follow in the same token are
    never kept as the value: when the next token exists and does not start
    with a dash it is consumed and bound, even if the option's own token has
    a remainder; otherwise the step fails with "expects an argument", even
    if the option's own token has a remainder (the pointer to it is all
    that is left in the option). *)
Theorem C6_short_option_binds_next_token app i current k o :
  _argv app !! i = Some current →
  IS_SHORT_FLAG current = true → IS_LONG_FLAG current = false →
  truthy (Z.lor (_mode app) CMDAPP_MODE_SHORTARG) = true →
  cmdapp_search app (byte current 1) None = Hit k →
  option_at app k = Some o → takes_argument o = true →
  (usable (_argv app !! S i) = true →
   ∃ app', step app i false = Next app' (S (S i)) false
           ∧ value <$> option_at app' k = Some (Some (Ptr (S i) 0)))
  ∧ (usable (_argv app !! S i) = false →
     ∃ app', step app i false =
             Return (Error (expects_an_argument [dash; byte current 1])) app'
             ∧ value <$> option_at app' k = Some (Some (Ptr i 2))).
Proof.
  intros Hi Hshort Hlong Hmode Hk Ho Htakes.
  assert (Hstep : step app i false = short_arg app i current (_argv app !! S i)).
  { unfold step. by rewrite Hi, (IS_LONG_FLAG_false _ Hlong), Hlong, Hshort, Hmode. }
  assert (Htr : truthy (Z.lor (flags_at (set_value k None app) k) CMDOPT_TAKESARG) = true).
  { apply truthy_lor_of_land. revert Ho Htakes.
    unfold flags_at, option_at, takes_argument. simpl.
    rewrite list_lookup_alter_eq.
    destruct (_start app !! k); simpl; [|done]. by intros [= <-]. }
  rewrite Hstep. unfold short_arg. rewrite Hk, Htr.
  unfold option_at in *.
  destruct (_start app !! k) as [a|] eqn:Ha; [|done].
  split; intros ->; eexists; (split; [reflexivity|]); simpl;
    rewrite !list_lookup_alter_eq, Ha; reflexivity.
Qed.

(** ** C1: the two spellings of a boolean option *)

Lemma truthy_lor_nonzero f bits : bits ≠ 0 → truthy (Z.lor f bits) = true.
Proof.
  intros Hb. unfold truthy. rewrite negb_true_iff, bool_decide_eq_false.
  intros Hlor. apply Z.lor_eq_0_iff in Hlor. tauto.
Qed.

(** C1, as the code has it.  The tests of the argument attribute are
    [flags | CMDOPT_TAKESARG], which is non-zero for every option once the
    constant is: the option `-v`, `--verbose` is treated as taking an
    argument whatever flags it was registered with.  Scanning `--verbose`
    fails with "expects an argument"; scanning `-v` fails the same way in
    short-argument mode and reads past the token in the multi-flag branch.
    Neither scan succeeds, and neither marks the option as seen. *)
Theorem C1_boolean_option_rejected mode fl :
  CMDOPT_TAKESARG ≠ 0 →
  let long := cmdapp_run (verbose_app [tok "prog"; tok "--verbose"] mode fl) in
  let short := cmdapp_run (verbose_app [tok "prog"; tok "-v"] mode fl) in
  long.1 = Error (expects_an_argument (tok "--verbose"))
  ∧ flags <$> option_at long.2 0 = Some (wrap8 fl)
  ∧ short.1 = (if truthy (Z.lor mode CMDAPP_MODE_SHORTARG)
               then Error (expects_an_argument (tok "-v")) else Undefined)
  ∧ flags <$> option_at short.2 0 = Some (wrap8 fl).
Proof.
  intros HT.
  pose proof (truthy_lor_nonzero (wrap8 fl) _ HT) as Htr.
  cbv -[truthy Z.lor wrap8].
  cbv -[truthy Z.lor wrap8] in Htr. rewrite Htr.
  destruct (truthy (Z.lor mode CMDAPP_MODE_SHORTARG)); auto.
Qed.

(** ** C8: the multi-flag branch *)

Lemma registry_flags_set_value k v app :
  registry_flags (set_value k v app) = registry_flags app.
Proof.
  unfold registry_flags. simpl.
  apply list_eq. intros j. rewrite !list_lookup_fmap.
  destruct (decide (j = k)) as [->|Hj].
  - rewrite list_lookup_alter_eq. by destruct (_start app !! k).
  - by rewrite list_lookup_alter_ne.
Qed.

(** The multi-flag branch never writes to the flags of an option: it marks
    no option as seen. *)
Lemma multi_flag_flags js : ∀ app i0 i current next,
  registry_flags (app_of (multi_flag js app i0 i current next)) = registry_flags app.
Proof.
  induction js as [|j js IH]; intros app i0 i current next; simpl; auto.
  repeat case_match; simpl; auto;
    rewrite ?IH, ?registry_flags_set_value; auto.
Qed.

(** C8, as the code has it.  With the options `-a`, `-b`, `-c` registered,
    the scan of the single cluster `-abc` never succeeds, whatever the mode,
    the registered flags and the constants of the header: in the
    short-argument branch `-a` is either refused its trailing characters or
    left without an argument, and the multi-flag branch looks up `a` again
    in every round, asks for an argument and finds none.  No option is
    marked as seen; `b` and `c` are never looked up. *)
Theorem C8_cluster_never_accepted mode fa fb fc :
  let r := cmdapp_run (abc_app [tok "prog"; tok "-abc"] mode fa fb fc) in
  r.1 = (if truthy (Z.lor mode CMDAPP_MODE_SHORTARG)
              && negb (truthy (Z.lor (wrap8 fa) CMDOPT_TAKESARG))
         then Error (does_not_take_arguments (tok "-a"))
         else Error (expects_an_argument (tok "-a")))
  ∧ exit_status r.1 = Some EXIT_FAILURE
  ∧ registry_flags r.2 = [wrap8 fa; wrap8 fb; wrap8 fc].
Proof.
  cbv -[truthy Z.lor wrap8].
  destruct (truthy (Z.lor mode CMDAPP_MODE_SHORTARG));
    destruct (truthy (Z.lor (wrap8 fa) CMDOPT_TAKESARG)); auto.
Qed.

(** ** C4: what a failed scan leaves behind *)

(** A round that returns leaves the positional list and the flags of every
    option as it found them. *)
Lemma step_return_keeps app i only o app' :
  step app i only = Return o app' →
  cmdapp_getargs app' = cmdapp_getargs app
  ∧ registry_flags app' = registry_flags app.
Proof.
  unfold step, cmdapp_getargs.
  destruct (_argv app !! i) as [current|]; [|by intros [= <- <-]].
  destruct only; [discriminate|].
  destruct (IS_END_OF_FLAGS current); [discriminate|].
  destruct (IS_LONG_FLAG current).
  { intros Hl. apply long_flag_error_flags in Hl. destruct Hl as [-> Hs].
    unfold registry_flags. by rewrite Hs. }
  destruct (IS_SHORT_FLAG current); [|discriminate].
  destruct (truthy _).
  - unfold short_arg. repeat case_match; try discriminate;
      intros [= <- <-]; rewrite ?registry_flags_set_value; auto.
  - intros Hm.
    pose proof (multi_flag_args (cstring (drop 1 current)) app i i current
                  (_argv app !! S i)) as Ha.
    pose proof (multi_flag_flags (cstring (drop 1 current)) app i i current
                  (_argv app !! S i)) as Hf.
    rewrite Hm in Ha, Hf. auto.
Qed.

(** A scan that fails stopped at the round that found the error. *)
Lemma scan_from_error n : ∀ app i only d,
  (_argc app - i ≤ n)%nat →
  (scan_from app i only).1 = Error d →
  ∃ app1 i1 only1,
    reaches app i only app1 i1 only1 ∧ (i1 < _argc app1)%nat
    ∧ step app1 i1 only1 = Return (Error d) (scan_from app i only).2.
Proof.
  induction n as [|n IH]; intros app i only d Hn; rewrite scan_from_unfold;
    case_bool_decide as Hle; simpl; try discriminate; try lia.
  destruct (step app i only) as [app1 i1 only1|o app1] eqn:Hs; simpl.
  - intros Herr. destruct (step_next _ _ _ _ _ _ Hs) as [Hlen Hlt].
    destruct (IH app1 i1 only1 d) as (app2 & i2 & only2 & Hr & Hi2 & Hst); auto.
    { unfold _argc in *. lia. }
    exists app2, i2, only2. split; auto.
    eapply reaches_round; eauto. lia.
  - intros ->. exists app, i, only. split; [constructor|]. split; [lia|done].
Qed.

(** C4, amended.  A scan that classifies an error returns [EXIT_FAILURE]
    from the round that finds it: the state it leaves is the state of that
    round, and no later token is processed.  Nothing is rolled back: the
    positional list is still there for [cmdapp_getargs], with the arguments
    collected before the error, and the flags of the options are as the
    rounds before the error left them. *)
Theorem C4_error_returns_at_once_keeps_state app d :
  (cmdapp_run app).1 = Error d →
  exit_status (cmdapp_run app).1 = Some EXIT_FAILURE
  ∧ ∃ app1 i1 only1,
      reaches (with_args (Some []) app) 0 false app1 i1 only1
      ∧ step app1 i1 only1 = Return (Error d) (cmdapp_run app).2
      ∧ cmdapp_getargs (cmdapp_run app).2 = cmdapp_getargs app1
      ∧ is_Some (cmdapp_getargs (cmdapp_run app).2)
      ∧ registry_flags (cmdapp_run app).2 = registry_flags app1.
Proof.
  intros Herr. split; [by rewrite Herr|].
  rewrite cmdapp_run_scan_from in *.
  destruct (scan_from_error _ _ _ _ _ (le_n _) Herr)
    as (app1 & i1 & only1 & Hr & Hi1 & Hst).
  exists app1, i1, only1. split; auto. split; auto.
  destruct (step_return_keeps _ _ _ _ _ Hst) as [Hargs Hflags].
  repeat split; auto.
  rewrite Hargs. by eapply reaches_args_Some.
Qed.

(** ** C3: two scans in a row *)

Lemma names_of_alter f k l :
  (∀ o, shorto (f o) = shorto o ∧ longo (f o) = longo o) →
  names_of (alter (on_result f) k l) = names_of l.
Proof.
  intros Hf. unfold names_of. apply list_eq. intros j.
  rewrite !list_lookup_fmap.
  destruct (decide (j = k)) as [->|Hj].
  - rewrite list_lookup_alter_eq. destruct (l !! k) as [a|]; simpl; auto.
    destruct (Hf (result a)) as [-> ->]. done.
  - by rewrite list_lookup_alter_ne.
Qed.

Lemma names_of_set_value k v app :
  names_of (_start (set_value k v app)) = names_of (_start app).
Proof. simpl. by apply names_of_alter. Qed.

Lemma names_of_or_flags k bits app :
  names_of (_start (or_flags k bits app)) = names_of (_start app).
Proof. simpl. by apply names_of_alter. Qed.

Lemma search_short_names c : ∀ l1 l2 k,
  names_of l1 = names_of l2 → search_short l1 c k = search_short l2 c k.
Proof.
  induction l1 as [|a l1 IH]; intros [|b l2] k; simpl; try done.
  intros [= Hs _ Hn]. rewrite Hs. case_bool_decide; auto.
Qed.

Lemma search_long_names name : ∀ l1 l2 k,
  names_of l1 = names_of l2 → search_long l1 name k = search_long l2 name k.
Proof.
  induction l1 as [|a l1 IH]; intros [|b l2] k; simpl; try done.
  intros [= _ Hl Hn]. rewrite Hl. repeat case_match; auto.
Qed.

Lemma cmdapp_search_names app1 app2 c long :
  names_of (_start app1) = names_of (_start app2) →
  cmdapp_search app1 c long = cmdapp_search app2 c long.
Proof.
  unfold cmdapp_search. destruct long; intros Hn.
  - by apply search_long_names.
  - by apply search_short_names.
Qed.

Lemma cmdapp_search_with_argv argv app c long :
  cmdapp_search (with_argv argv app) c long = cmdapp_search app c long.
Proof. reflexivity. Qed.

(** Whether the help returns depends on the number of tokens and of
    options only. *)
Lemma help_defined_names argv app1 app2 :
  names_of (_start app1) = names_of (_start app2) →
  bool_decide (help_defined (with_argv argv app1))
  = bool_decide (help_defined (with_argv argv app2)).
Proof.
  intros Hn. apply bool_decide_ext. unfold help_defined, _argc, _length. simpl.
  apply (f_equal length) in Hn. unfold names_of in Hn.
  rewrite !length_fmap in Hn. by rewrite Hn.
Qed.

Section NonZero.

(** The argument attribute is a non-zero bit mask. *)
Hypothesis TAKESARG_nonzero : CMDOPT_TAKESARG ≠ 0.

Lemma long_flag_agree app1 app2 i current :
  agree app1 app2 → agree_result (long_flag app1 i current) (long_flag app2 i current).
Proof.
  intros (Hargv & Hmode & Hargs & Hnames). unfold long_flag.
  rewrite Hargv, !cmdapp_search_with_argv.
  rewrite (cmdapp_search_names app1 app2) by done.
  rewrite !help_branch, (help_defined_names _ app1 app2) by done.
  destruct (cmdapp_search _ _ _); simpl;
    rewrite ?truthy_lor_nonzero by done;
    repeat case_match; simpl; unfold agree; simpl;
    rewrite ?names_of_alter by done; auto.
Qed.

Lemma short_arg_agree app1 app2 i current next :
  agree app1 app2 →
  agree_result (short_arg app1 i current next) (short_arg app2 i current next).
Proof.
  intros (Hargv & Hmode & Hargs & Hnames). unfold short_arg.
  rewrite (cmdapp_search_names app1 app2) by done.
  destruct (cmdapp_search _ _ _); simpl;
    rewrite ?truthy_lor_nonzero by done;
    repeat case_match; simpl; unfold agree; simpl;
    rewrite ?names_of_alter by done; auto.
Qed.

Lemma multi_flag_agree js : ∀ app1 app2 i0 i current next,
  agree app1 app2 →
  agree_result (multi_flag js app1 i0 i current next)
               (multi_flag js app2 i0 i current next).
Proof.
  induction js as [|j js IH]; intros app1 app2 i0 i current next Hag; simpl; auto.
  destruct Hag as (Hargv & Hmode & Hargs & Hnames).
  rewrite (cmdapp_search_names app1 app2) by done.
  destruct (cmdapp_search _ _ _); simpl; unfold agree; auto.
  repeat case_match; simpl; unfold agree; simpl;
    rewrite ?names_of_alter by done; auto;
    apply IH; unfold agree; simpl; rewrite ?names_of_alter by done; auto.
Qed.

Lemma step_agree app1 app2 i only :
  agree app1 app2 → agree_result (step app1 i only) (step app2 i only).
Proof.
  intros Hag. pose proof Hag as (Hargv & Hmode & Hargs & Hnames).
  unfold step. rewrite Hargv, Hmode.
  destruct (_argv app2 !! i) as [current|]; simpl; auto.
  destruct only; simpl.
  { unfold agree, APPEND_ARG. simpl. rewrite Hargs. auto. }
  destruct (IS_END_OF_FLAGS current); simpl; auto.
  destruct (IS_LONG_FLAG current); [by apply long_flag_agree|].
  destruct (IS_SHORT_FLAG current).
  - destruct (truthy _); [by apply short_arg_agree|by apply multi_flag_agree].
  - simpl. unfold agree, APPEND_ARG. simpl. rewrite Hargs. auto.
Qed.

(** The outcome, the positional list and argv of a scan do not depend on
    the [flags] and [value] fields it starts from. *)
Lemma scan_from_agree n : ∀ app1 app2 i only,
  (_argc app1 - i ≤ n)%nat → agree app1 app2 →
  (scan_from app1 i only).1 = (scan_from app2 i only).1
  ∧ agree (scan_from app1 i only).2 (scan_from app2 i only).2.
Proof.
  induction n as [|n IH]; intros app1 app2 i only Hn Hag;
    rewrite !scan_from_unfold;
    assert (Hc : _argc app1 = _argc app2) by (unfold _argc; by destruct Hag as [-> _]);
    rewrite <- Hc; case_bool_decide; simpl; auto; try lia.
  pose proof (step_agree app1 app2 i only Hag) as Hst.
  destruct (step app1 i only) as [a1 i1 o1|r1 a1] eqn:Hs1;
    destruct (step app2 i only) as [a2 i2 o2|r2 a2] eqn:Hs2; simpl in Hst.
  - destruct Hst as (Hag' & <- & <-).
    destruct (step_next _ _ _ _ _ _ Hs1) as [Hlen Hlt].
    apply IH; auto. unfold _argc in *. lia.
  - destruct Hst.
  - destruct Hst.
  - destruct Hst as [-> Hag']. auto.
Qed.

End NonZero.

(** A scan changes neither the mode nor the names in the registry. *)
Lemma step_names app i only :
  _mode (app_of (step app i only)) = _mode app
  ∧ names_of (_start (app_of (step app i only))) = names_of (_start app).
Proof.
  assert (Hm : ∀ js a i0 j cur nx,
    _mode (app_of (multi_flag js a i0 j cur nx)) = _mode a
    ∧ names_of (_start (app_of (multi_flag js a i0 j cur nx))) = names_of (_start a)).
  { induction js as [|c js IH]; intros a i0 j cur nx; simpl; auto.
    repeat case_match; simpl; rewrite ?names_of_alter by done; auto;
      match goal with
      | |- context [multi_flag js ?x ?y ?z ?u ?v] =>
          destruct (IH x y z u v) as [-> ->]
      end; simpl; rewrite ?names_of_alter by done; auto. }
  unfold step, long_flag, short_arg.
  repeat case_match; simpl; rewrite ?names_of_alter by done; auto.
Qed.

Lemma scan_from_names n : ∀ app i only,
  (_argc app - i ≤ n)%nat →
  _mode (scan_from app i only).2 = _mode app
  ∧ names_of (_start (scan_from app i only).2) = names_of (_start app).
Proof.
  induction n as [|n IH]; intros app i only Hn; rewrite scan_from_unfold;
    case_bool_decide; simpl; auto; try lia.
  pose proof (step_names app i only) as [Hmode Hnames].
  destruct (step app i only) as [a1 i1 o1|r1 a1] eqn:Hs; simpl in *; auto.
  destruct (step_next _ _ _ _ _ _ Hs) as [Hlen Hlt].
  destruct (IH a1 i1 o1) as [-> ->]; auto. unfold _argc in *. lia.
Qed.

(** C3, amended.  A scan empties the positional list at its start and does
    not reset the [seen] and value fields of the options.  For a non-zero
    [CMDOPT_TAKESARG], scanning V1 and then V2 against one registry gives
    the outcome, the positional list and the argument vector that scanning
    V2 alone gives, and leaves the names in the registry alone; the flags
    and values the first scan wrote are still in the options when the
    second scan starts, and they stay unless the second scan overwrites
    them. *)
Theorem C3_second_scan_same_positionals app V1 V2 :
  CMDOPT_TAKESARG ≠ 0 →
  let first := (scan app V1).2 in
  (scan first V2).1 = (scan app V2).1
  ∧ cmdapp_getargs (scan first V2).2 = cmdapp_getargs (scan app V2).2
  ∧ _argv (scan first V2).2 = _argv (scan app V2).2
  ∧ positionals (scan first V2).2 = positionals (scan app V2).2
  ∧ names_of (_start (scan first V2).2) = names_of (_start app).
Proof.
  intros HT first.
  assert (Hfirst : _mode first = _mode app
                   ∧ names_of (_start first) = names_of (_start app)).
  { unfold first, scan. rewrite cmdapp_run_scan_from.
    destruct (scan_from_names (_argc (with_args (Some []) (with_argv V1 app)))
                (with_args (Some []) (with_argv V1 app)) 0 false) as [Hm Hn];
      [lia|]. auto. }
  destruct Hfirst as [Hmode Hnames].
  assert (Hag : agree (with_args (Some []) (with_argv V2 first))
                      (with_args (Some []) (with_argv V2 app))).
  { unfold agree. simpl. auto. }
  unfold scan.
  rewrite !cmdapp_run_scan_from.
  destruct (scan_from_agree HT _ _ _ 0 false (le_n _) Hag)
    as (Hout & Hargv & _ & Hargs & Hnames').
  unfold positionals, cmdapp_getargs. rewrite Hargv, Hargs.
  repeat split; auto.
  rewrite Hnames'.
  destruct (scan_from_names (_argc (with_args (Some []) (with_argv V2 app)))
              (with_args (Some []) (with_argv V2 app)) 0 false) as [_ Hn];
    [lia|]. auto.
Qed.

End Properties.

(** * Further properties *)

(** ** The registry: [cmdapp_init], [cmdapp_append], [cmdapp_set] *)

Lemma cmdapp_append_fits app arg_int :
  (2 ≤ _capacity app)%nat → (_length app ≤ _capacity app)%nat →
  (2 ≤ _capacity (cmdapp_append app arg_int))%nat
  ∧ (_length (cmdapp_append app arg_int) ≤ _capacity (cmdapp_append app arg_int))%nat.
Proof.
  intros Hcap Hlen. unfold cmdapp_append, _length in *. cbn -[Nat.div].
  rewrite length_app. cbn -[Nat.div]. case_bool_decide; split; try lia.
  assert (1 ≤ _capacity app / 2)%nat by (apply Nat.div_le_lower_bound; lia).
  lia.
Qed.

Lemma foldl_register_start rs : ∀ app,
  _start (foldl register app rs) =
  _start app ++
  ((λ r, Internal (Cmdopt (reg_short r) (reg_long r) (wrap8 (reg_flags r)) None)
           (reg_description r) (default [] (reg_conflicts r))) <$> rs).
Proof.
  induction rs as [|r rs IH]; intros app; simpl.
  - by rewrite app_nil_r.
  - rewrite IH. simpl. by rewrite <- app_assoc.
Qed.

Lemma foldl_register_fits rs : ∀ app,
  (2 ≤ _capacity app)%nat → (_length app ≤ _capacity app)%nat →
  (_length (foldl register app rs) ≤ _capacity (foldl register app rs))%nat.
Proof.
  induction rs as [|r rs IH]; intros app Hcap Hlen; simpl; auto.
  destruct (cmdapp_append_fits app
              (Internal (Cmdopt (reg_short r) (reg_long r) (wrap8 (reg_flags r)) None)
                 (reg_description r) (default [] (reg_conflicts r))) Hcap Hlen).
  by apply IH.
Qed.

(** X1.  After [cmdapp_init] and any sequence of [cmdapp_set] calls the
    registry holds exactly the registered options, in registration order,
    each with the names and description it was given, its flags cut to a
    byte and a null value; and the store never overflows: the number of
    options stays within the capacity that the growth by one half has
    reached. *)
Theorem X1_registry_is_the_registrations argv mode info rs :
  _start (registered argv mode info rs) =
    ((λ r, Internal (Cmdopt (reg_short r) (reg_long r) (wrap8 (reg_flags r)) None)
             (reg_description r) (default [] (reg_conflicts r))) <$> rs)
  ∧ _length (registered argv mode info rs) = length rs
  ∧ (_length (registered argv mode info rs) ≤ _capacity (registered argv mode info rs))%nat
  ∧ _argv (registered argv mode info rs) = argv
  ∧ cmdapp_getargs (registered argv mode info rs) = None.
Proof.
  unfold registered.
  assert (Hstart := foldl_register_start rs (cmdapp_init argv mode info)).
  simpl in Hstart. split; [done|]. split.
  { unfold _length. rewrite Hstart. by rewrite length_fmap. }
  split.
  { apply foldl_register_fits; unfold _length; simpl; lia. }
  assert (Hkeep : ∀ l app, _argv (foldl register app l) = _argv app
                          ∧ _args (foldl register app l) = _args app).
  { induction l as [|r l IH]; intros app; simpl; auto.
    destruct (IH (register app r)) as [-> ->]. auto. }
  destruct (Hkeep rs (cmdapp_init argv mode info)) as [-> Ha].
  split; [done|]. unfold cmdapp_getargs. by rewrite Ha.
Qed.

(** What [cmdapp_set] stores fits the byte of the [flags] field. *)
Lemma registered_byte_flags argv mode info rs : byte_flags (registered argv mode info rs).
Proof.
  unfold byte_flags, registry_flags, registered.
  rewrite foldl_register_start. simpl.
  rewrite <- list_fmap_compose. apply Forall_fmap, Forall_forall.
  intros r _. simpl. unfold wrap8. apply Z.mod_pos_bound. lia.
Qed.

(** ** Lookup: [cmdapp_search] *)

Lemma search_short_app c l l' : ∀ k,
  search_short (l ++ l') c k =
  match search_short l c k with
  | Hit j => Hit j
  | Miss => search_short l' c (k + length l)
  | Fault => Fault
  end.
Proof.
  induction l as [|a l IH]; intros k; simpl.
  - by rewrite Nat.add_0_r.
  - case_bool_decide; auto. rewrite IH.
    by replace (S k + length l)%nat with (k + S (length l))%nat by lia.
Qed.

Lemma search_long_app name l l' : ∀ k,
  search_long (l ++ l') name k =
  match search_long l name k with
  | Hit j => Hit j
  | Miss => search_long l' name (k + length l)
  | Fault => Fault
  end.
Proof.
  induction l as [|a l IH]; intros k; simpl.
  - by rewrite Nat.add_0_r.
  - destruct (longo (result a)); auto. destruct (strcmp_eq _ _); auto.
    rewrite IH.
    by replace (S k + length l)%nat with (k + S (length l))%nat by lia.
Qed.

(** X2.  Registration and lookup round trip.  After
    [cmdapp_set(app, c, name, ...)] the lookup of the short name [c] and the
    lookup of the long name [name] find an option: the one just
    registered, unless an option registered earlier already answers to
    that name, which then shadows the new one (first match wins).  A long
    lookup that ran into an option without a long name still does. *)
Theorem X2_register_then_search app c (name : cbuf) fl confl descr :
  cmdapp_search (cmdapp_set app c (Some name) fl confl descr) c None =
    match cmdapp_search app c None with
    | Hit k => Hit k
    | _ => Hit (_length app)
    end
  ∧ cmdapp_search (cmdapp_set app c (Some name) fl confl descr) NUL (Some name) =
      match cmdapp_search app NUL (Some name) with
      | Hit k => Hit k
      | Miss => Hit (_length app)
      | Fault => Fault
      end.
Proof.
  unfold cmdapp_search, cmdapp_set, cmdapp_append, _length. simpl.
  rewrite search_short_app, search_long_app. simpl.
  rewrite bool_decide_true by done.
  unfold strcmp_eq. rewrite bool_decide_true by done.
  split.
  - destruct (search_short (_start app) c 0) eqn:Hs; auto.
    exfalso. clear -Hs. revert Hs. generalize 0%nat.
    induction (_start app) as [|a l IH]; intros k; simpl; [done|].
    case_bool_decide; [done|]. apply IH.
  - destruct (search_long (_start app) name 0); auto.
Qed.

(** X3.  Handles are stable: registering a further option changes neither
    what an earlier lookup found nor the option behind the handle. *)
Theorem X3_earlier_handles_stay app c long k short' long' fl confl descr :
  cmdapp_search app c long = Hit k →
  cmdapp_search (cmdapp_set app short' long' fl confl descr) c long = Hit k
  ∧ option_at (cmdapp_set app short' long' fl confl descr) k = option_at app k.
Proof.
  intros Hk. destruct (cmdapp_search_Hit _ _ _ _ Hk) as [o Ho].
  unfold cmdapp_search, cmdapp_set, cmdapp_append, option_at in *. simpl.
  split.
  - destruct long; [rewrite search_long_app|rewrite search_short_app];
      by rewrite Hk.
  - apply fmap_Some in Ho. destruct Ho as (a & Ha & _).
    by rewrite (lookup_app_l_Some _ _ _ _ Ha), Ha.
Qed.

Lemma search_short_first c l : ∀ k0 k,
  search_short l c k0 = Hit k ↔
  ∃ i a, k = (k0 + i)%nat ∧ l !! i = Some a ∧ shorto (result a) = c
         ∧ ∀ j b, (j < i)%nat → l !! j = Some b → shorto (result b) ≠ c.
Proof.
  induction l as [|a l IH]; intros k0 k; simpl.
  - split; [done|]. by intros (i & b & _ & ? & _).
  - case_bool_decide as Ha.
    + split.
      * intros [= <-]. exists 0%nat, a.
        split; [lia|]. split; [done|]. split; [done|]. intros j b Hj. lia.
      * intros (i & b & -> & Hi & _ & Hfirst).
        destruct i as [|i]; [f_equal; lia|].
        exfalso. apply (Hfirst 0%nat a); [lia|done|done].
    + rewrite IH. split.
      * intros (i & b & -> & Hi & Hb & Hfirst).
        exists (S i), b. split; [lia|]. split; [done|]. split; [done|].
        intros [|j] b' Hj; simpl; [by intros [= <-]|]. apply Hfirst. lia.
      * intros (i & b & -> & Hi & Hb & Hfirst).
        destruct i as [|i]; simpl in Hi; [congruence|].
        exists i, b. split; [lia|]. split; [done|]. split; [done|].
        intros j b' Hj Hl. apply (Hfirst (S j) b'); [lia|done].
Qed.

Lemma search_short_Miss c l : ∀ k0,
  search_short l c k0 = Miss ↔ Forall (λ a, shorto (result a) ≠ c) l.
Proof.
  induction l as [|a l IH]; intros k0; simpl.
  - split; [constructor|done].
  - rewrite Forall_cons. case_bool_decide.
    + split; [done|]. by intros [? _].
    + rewrite IH. tauto.
Qed.

(** X4.  The lookup of a short name returns the first registered option
    with that character and nothing else: it hits [k] exactly when option
    [k] has the name and no earlier option has it, misses exactly when no
    option has it, and reads no long name. *)
Theorem X4_short_lookup_is_first_match app c :
  (∀ k, cmdapp_search app c None = Hit k ↔
        (∃ o, option_at app k = Some o ∧ shorto o = c)
        ∧ ∀ j o, (j < k)%nat → option_at app j = Some o → shorto o ≠ c)
  ∧ (cmdapp_search app c None = Miss ↔
     ∀ j o, option_at app j = Some o → shorto o ≠ c)
  ∧ cmdapp_search app c None ≠ Fault.
Proof.
  unfold cmdapp_search, option_at. split; [|split].
  - intros k. rewrite search_short_first. split.
    + intros (i & a & -> & Hi & Ha & Hfirst). simpl. split.
      * exists (result a). by rewrite Hi.
      * intros j o Hj Ho. apply fmap_Some in Ho. destruct Ho as (b & Hb & ->).
        by eapply Hfirst.
    + intros [(o & Ho & Hc) Hfirst].
      apply fmap_Some in Ho. destruct Ho as (a & Ha & ->).
      exists k, a. repeat split; auto.
      intros j b Hj Hb. apply (Hfirst j); [done|]. by rewrite Hb.
  - rewrite search_short_Miss, Forall_lookup. split.
    + intros Hall j o Ho. apply fmap_Some in Ho. destruct Ho as (a & Ha & ->).
      by eapply Hall.
    + intros Hall j a Ha. apply (Hall j). by rewrite Ha.
  - generalize 0%nat. induction (_start app) as [|a l IH]; intros k; simpl; [done|].
    case_bool_decide; [done|]. apply IH.
Qed.

(** X5.  The lookup of a long name compares, in registration order, the
    long name of each option with [strcmp].  It hits [k] exactly when
    option [k] has the name and every earlier option has another long
    name; it has undefined behaviour exactly when some option has no long
    name and every earlier option has another long name: an option
    registered without a long name is safe only behind a match. *)
Theorem X5_long_lookup_is_first_match app (name : cbuf) :
  (∀ k, cmdapp_search app NUL (Some name) = Hit k ↔
        ∃ o s, option_at app k = Some o ∧ longo o = Some s
               ∧ cstring s = cstring name
               ∧ ∀ j o', (j < k)%nat → option_at app j = Some o' →
                         ∃ s', longo o' = Some s' ∧ cstring s' ≠ cstring name)
  ∧ (cmdapp_search app NUL (Some name) = Fault ↔
     ∃ k o, option_at app k = Some o ∧ longo o = None
            ∧ ∀ j o', (j < k)%nat → option_at app j = Some o' →
                      ∃ s', longo o' = Some s' ∧ cstring s' ≠ cstring name).
Proof.
  unfold cmdapp_search, option_at. split.
  - intros k. rewrite search_long_first. split.
    + intros (i & a & s & -> & Hi & Ha & Hs & Hfirst). simpl.
      exists (result a), s. rewrite Hi. repeat split; auto.
      intros j o' Hj Ho. apply fmap_Some in Ho. destruct Ho as (b & Hb & ->).
      by eapply Hfirst.
    + intros (o & s & Ho & Hl & Hs & Hfirst).
      apply fmap_Some in Ho. destruct Ho as (a & Ha & ->).
      exists k, a, s. repeat split; auto.
      intros j b Hj Hb. apply (Hfirst j); [done|]. by rewrite Hb.
  - rewrite search_long_Fault. split.
    + intros (i & a & Hi & Ha & Hfirst).
      exists i, (result a). rewrite Hi. repeat split; auto.
      intros j o' Hj Ho. apply fmap_Some in Ho. destruct Ho as (b & Hb & ->).
      by eapply Hfirst.
    + intros (k & o & Ho & Hl & Hfirst).
      apply fmap_Some in Ho. destruct Ho as (a & Ha & ->).
      exists k, a. repeat split; auto.
      intros j b Hj Hb. apply (Hfirst j); [done|]. by rewrite Hb.
Qed.

(** ** The scanner: termination and defined behaviour *)

Section ScannerFacts.

Context (CMDOPT_TAKESARG CMDOPT_EXISTS CMDAPP_MODE_SHORTARG : Z).

Local Abbreviation long_flag := (long_flag CMDOPT_TAKESARG CMDOPT_EXISTS).
Local Abbreviation short_arg := (short_arg CMDOPT_TAKESARG CMDOPT_EXISTS).
Local Abbreviation step := (step CMDOPT_TAKESARG CMDOPT_EXISTS CMDAPP_MODE_SHORTARG).
Local Abbreviation loop := (loop CMDOPT_TAKESARG CMDOPT_EXISTS CMDAPP_MODE_SHORTARG).
Local Abbreviation scan_from :=
  (scan_from CMDOPT_TAKESARG CMDOPT_EXISTS CMDAPP_MODE_SHORTARG).
Local Abbreviation cmdapp_run :=
  (cmdapp_run CMDOPT_TAKESARG CMDOPT_EXISTS CMDAPP_MODE_SHORTARG).
Local Abbreviation reaches :=
  (reaches CMDOPT_TAKESARG CMDOPT_EXISTS CMDAPP_MODE_SHORTARG).

(** X6.  [cmdapp_run] terminates: every round of its loop moves the index
    forward, so [_argc] rounds are enough, more rounds change nothing, and
    the call returns a status or has left defined behaviour; it never
    loops. *)
Theorem X6_cmdapp_run_terminates app more :
  loop (_argc app + more) (with_args (Some []) app) 0 false = cmdapp_run app
  ∧ (cmdapp_run app).1 ≠ OutOfFuel
  ∧ ((∃ status, exit_status (cmdapp_run app).1 = Some status)
     ∨ (cmdapp_run app).1 = Undefined).
Proof.
  assert (Hret : (cmdapp_run app).1 ≠ OutOfFuel).
  { rewrite cmdapp_run_scan_from. by eapply scan_from_returns. }
  split; [|split; [done|]].
  - unfold cmdapp_run. apply loop_fuel; unfold _argc; simpl; lia.
  - destruct (cmdapp_run app).1; simpl; eauto. done.
Qed.

Lemma search_long_no_fault name l : ∀ k,
  Forall (λ n, is_Some n.2) (names_of l) → search_long l name k ≠ Fault.
Proof.
  induction l as [|a l IH]; intros k; simpl; [done|].
  rewrite Forall_cons. simpl. intros [[s Hs] Hl]. rewrite Hs.
  destruct (strcmp_eq s name); [done|]. by apply IH.
Qed.

Lemma search_short_no_fault c l : ∀ k, search_short l c k ≠ Fault.
Proof.
  induction l as [|a l IH]; intros k; simpl; [done|].
  case_bool_decide; [done|]. apply IH.
Qed.

(** With a non-zero mode constant a single-dash token always takes the
    short-argument branch. *)
Lemma step_short_branch app i current :
  CMDAPP_MODE_SHORTARG ≠ 0 →
  _argv app !! i = Some current →
  IS_LONG_FLAG current = false → IS_SHORT_FLAG current = true →
  step app i false = short_arg app i current (_argv app !! S i).
Proof.
  intros HS Hi Hlong Hshort. unfold step.
  rewrite Hi, (IS_LONG_FLAG_false _ Hlong), Hlong, Hshort.
  by rewrite truthy_lor_nonzero.
Qed.

Lemma step_defined app i only current o app' :
  CMDOPT_TAKESARG ≠ 0 → CMDAPP_MODE_SHORTARG ≠ 0 →
  _argv app !! i = Some current →
  Forall (λ n, is_Some n.2) (names_of (_start app)) →
  _length app = 0%nat ∨ (_argc app ≤ _length app)%nat →
  step app i only = Return o app' → o ≠ Undefined.
Proof.
  intros HT HS Hi Hnames Hhelp. unfold step. rewrite Hi.
  destruct only; [done|].
  destruct (IS_END_OF_FLAGS current); [done|].
  destruct (IS_LONG_FLAG current).
  { unfold long_flag.
    rewrite help_branch, help_defined_with_argv, bool_decide_true.
    2: { split; [|done]. apply lookup_lt_Some in Hi. unfold _argc. lia. }
    destruct (cmdapp_search _ _ _) eqn:Hs.
    - rewrite truthy_lor_nonzero by done.
      destruct (strchr current "="%char); [done|]. by intros [= <- <-].
    - repeat case_match; by intros [= <- <-].
    - exfalso. unfold cmdapp_search in Hs. simpl in Hs.
      by apply search_long_no_fault in Hs. }
  destruct (IS_SHORT_FLAG current); [|done].
  rewrite truthy_lor_nonzero by done. unfold short_arg.
  destruct (cmdapp_search _ _ _) eqn:Hs.
  - rewrite truthy_lor_nonzero by done.
    destruct (usable _); [done|]. by intros [= <- <-].
  - by intros [= <- <-].
  - exfalso. unfold cmdapp_search in Hs. by apply search_short_no_fault in Hs.
Qed.

Lemma scan_from_defined n : ∀ app i only,
  CMDOPT_TAKESARG ≠ 0 → CMDAPP_MODE_SHORTARG ≠ 0 →
  (_argc app - i ≤ n)%nat →
  Forall (λ n, is_Some n.2) (names_of (_start app)) →
  _length app = 0%nat ∨ (_argc app ≤ _length app)%nat →
  (scan_from app i only).1 ≠ Undefined.
Proof.
  induction n as [|n IH]; intros app i only HT HS Hn Hnames Hhelp;
    rewrite scan_from_unfold;
    case_bool_decide as Hle; simpl; try done; try lia.
  destruct (_argv app !! i) as [current|] eqn:Hi.
  2: { apply lookup_ge_None in Hi. unfold _argc in *. lia. }
  pose proof (step_names CMDOPT_TAKESARG CMDOPT_EXISTS CMDAPP_MODE_SHORTARG
                app i only) as [_ Hkeep].
  destruct (step app i only) as [app1 i1 only1|o app1] eqn:Hs; simpl in *.
  - destruct (step_next _ _ _ _ _ _ _ _ _ Hs) as [Hlen Hlt].
    apply IH; [done|done|unfold _argc in *; lia|by rewrite Hkeep|].
    apply (f_equal length) in Hkeep. unfold names_of in Hkeep.
    rewrite !length_fmap in Hkeep. unfold _argc, _length in *.
    rewrite Hkeep. lia.
  - by eapply step_defined.
Qed.

(** X7.  Defined behaviour.  Let every registered option have a long
    name, let the registry be empty or hold at least [argc] options, and
    let the two constants [CMDOPT_TAKESARG] and [CMDAPP_MODE_SHORTARG] be
    non-zero.  Then [cmdapp_run] never leaves defined behaviour, whatever
    the tokens are: it reads no byte beyond a token, compares no null long
    name and, on `--help`, prints no option beyond the registry; it
    returns [EXIT_SUCCESS] or [EXIT_FAILURE]. *)
Theorem X7_cmdapp_run_defined app :
  CMDOPT_TAKESARG ≠ 0 → CMDAPP_MODE_SHORTARG ≠ 0 →
  Forall (λ a, is_Some (longo (result a))) (_start app) →
  _length app = 0%nat ∨ (_argc app ≤ _length app)%nat →
  (cmdapp_run app).1 ≠ Undefined
  ∧ ∃ status, exit_status (cmdapp_run app).1 = Some status
              ∧ (status = EXIT_SUCCESS ∨ status = EXIT_FAILURE).
Proof.
  intros HT HS Hlong Hhelp.
  assert (Hdef : (cmdapp_run app).1 ≠ Undefined).
  { rewrite cmdapp_run_scan_from.
    eapply scan_from_defined; [done|done|done| |done].
    simpl. unfold names_of. rewrite Forall_fmap.
    eapply Forall_impl; [exact Hlong|]. done. }
  split; [done|].
  pose proof (cmdapp_run_returns CMDOPT_TAKESARG CMDOPT_EXISTS
                CMDAPP_MODE_SHORTARG app) as Hfuel.
  destruct (cmdapp_run app).1; simpl; eauto; done.
Qed.

Lemma multi_flag_never_refuses_argument js : ∀ app i0 i current next d app' name,
  multi_flag js app i0 i current next = Return (Error d) app' →
  d ≠ does_not_take_arguments name.
Proof.
  induction js as [|j js IH]; intros app i0 i current next d app' name; simpl;
    [done|].
  repeat case_match; try done; try (by intros [= <- <-]); apply IH.
Qed.

(** The scanner never takes the branches that report an argument given to
    an option without one. *)
Lemma step_never_refuses_argument app i only d app' name :
  CMDOPT_TAKESARG ≠ 0 →
  step app i only = Return (Error d) app' → d ≠ does_not_take_arguments name.
Proof.
  intros HT.
  unfold step. destruct (_argv app !! i) as [current|]; [|done].
  destruct only; [done|].
  destruct (IS_END_OF_FLAGS current); [done|].
  destruct (IS_LONG_FLAG current).
  { unfold long_flag. destruct (cmdapp_search _ _ _).
    - rewrite truthy_lor_nonzero by done.
      destruct (strchr current "="%char); [done|]. by intros [= <- <-].
    - repeat case_match; try done; by intros [= <- <-].
    - done. }
  destruct (IS_SHORT_FLAG current); [|done].
  destruct (truthy (Z.lor (_mode app) CMDAPP_MODE_SHORTARG)).
  - unfold short_arg.
    destruct (cmdapp_search _ _ _); try done.
    + rewrite truthy_lor_nonzero by done.
      destruct (usable _); [done|]. by intros [= <- <-].
    + by intros [= <- <-].
  - apply multi_flag_never_refuses_argument.
Qed.

(** X8.  With a non-zero [CMDOPT_TAKESARG] no option is ever treated as
    boolean: the two tests [flags | CMDOPT_TAKESARG] always succeed, so no
    scan ever fails with "does not take arguments", neither for `--name=v`
    nor for `-ax`, in either mode. *)
Theorem X8_no_scan_refuses_an_argument app name :
  CMDOPT_TAKESARG ≠ 0 →
  (cmdapp_run app).1 ≠ Error (does_not_take_arguments name).
Proof.
  intros HT Herr. rewrite cmdapp_run_scan_from in Herr.
  destruct (scan_from_error _ _ _ _ _ _ _ _ (le_n _) Herr)
    as (app1 & i1 & only1 & _ & _ & Hst).
  by eapply step_never_refuses_argument.
Qed.

(** A round does not look at the mode. *)
Lemma step_with_mode m app i only :
  CMDAPP_MODE_SHORTARG ≠ 0 →
  step (with_mode m app) i only = map_result (with_mode m) (step app i only).
Proof.
  intros HS.
  destruct app as [argv mode capacity start args info].
  unfold step, with_mode. simpl.
  rewrite !(truthy_lor_nonzero _ CMDAPP_MODE_SHORTARG) by exact HS.
  destruct (argv !! i) as [current|]; [|reflexivity].
  destruct only; [reflexivity|].
  destruct (IS_END_OF_FLAGS current); [reflexivity|].
  unfold long_flag. rewrite ?help_branch.
  unfold short_arg, cmdapp_search, flags_at, option_at, set_value,
    or_flags, with_start, with_argv, APPEND_ARG, with_args,
    help_defined, _argc, _length. simpl.
  repeat case_match; simpl; try reflexivity; simplify_eq.
Qed.

Lemma scan_from_with_mode m n : ∀ app i only,
  CMDAPP_MODE_SHORTARG ≠ 0 →
  (_argc app - i ≤ n)%nat →
  scan_from (with_mode m app) i only =
  ((scan_from app i only).1, with_mode m (scan_from app i only).2).
Proof.
  induction n as [|n IH]; intros app i only HS Hn; rewrite !scan_from_unfold;
    change (_argc (with_mode m app)) with (_argc app);
    case_bool_decide; simpl; try done; try lia.
  rewrite step_with_mode by done.
  destruct (step app i only) as [app1 i1 only1|o app1] eqn:Hs; simpl; [|done].
  destruct (step_next _ _ _ _ _ _ _ _ _ Hs) as [Hlen Hlt].
  apply IH; [done|]. unfold _argc in *. lia.
Qed.

(** X9.  With a non-zero [CMDAPP_MODE_SHORTARG] the mode passed to
    [cmdapp_init] has no effect: the test [_mode | CMDAPP_MODE_SHORTARG]
    always selects the short-argument branch, so a scan gives the same
    outcome, positional list, option state and argv in every mode, and
    the multi-flag branch is never entered. *)
Theorem X9_mode_is_ignored app m :
  CMDAPP_MODE_SHORTARG ≠ 0 →
  (cmdapp_run (with_mode m app)).1 = (cmdapp_run app).1
  ∧ (cmdapp_run (with_mode m app)).2 = with_mode m (cmdapp_run app).2.
Proof.
  intros HS. rewrite !cmdapp_run_scan_from.
  change (with_args (Some []) (with_mode m app))
    with (with_mode m (with_args (Some []) app)).
  rewrite (scan_from_with_mode m (_argc (with_args (Some []) app))) by (done || lia).
  done.
Qed.


(** ** The scanner: the positional list *)

Lemma short_arg_args app i current next :
  _args (app_of (short_arg app i current next)) = _args app.
Proof. unfold short_arg. repeat case_match; reflexivity. Qed.

Lemma long_flag_args app i current :
  _args (app_of (long_flag app i current)) = _args app.
Proof. unfold long_flag. repeat case_match; reflexivity. Qed.

(** A round leaves the positional list alone or appends its own token. *)
Lemma step_args app i only :
  _args (app_of (step app i only)) = _args app
  ∨ ((i < _argc app)%nat
     ∧ _args (app_of (step app i only)) = Some (default [] (_args app) ++ [Ptr i 0])).
Proof.
  unfold step. destruct (_argv app !! i) as [current|] eqn:Hi; [|by left].
  assert (Hlt : (i < _argc app)%nat) by (by eapply lookup_lt_Some).
  destruct only; [by right|].
  destruct (IS_END_OF_FLAGS current); [by left|].
  destruct (IS_LONG_FLAG current); [left; apply long_flag_args|].
  destruct (IS_SHORT_FLAG current); [|by right].
  destruct (truthy _); left; [apply short_arg_args|apply multi_flag_args].
Qed.

Lemma step_argc app i only :
  length (_argv (app_of (step app i only))) = length (_argv app).
Proof.
  unfold step. repeat case_match; simpl; auto.
  - rewrite long_flag_argv. by rewrite length_insert.
  - by rewrite short_arg_argv.
  - by rewrite multi_flag_argv.
Qed.

Lemma scan_from_positional n : ∀ app i only js,
  (_argc app - i ≤ n)%nat →
  _args app = Some ((λ j, Ptr j 0) <$> js) →
  js `sublist_of` seq 0 (i `min` _argc app) →
  length (_argv (scan_from app i only).2) = length (_argv app)
  ∧ ∃ js', _args (scan_from app i only).2 = Some ((λ j, Ptr j 0) <$> js')
           ∧ js' `sublist_of` seq 0 (_argc app).
Proof.
  induction n as [|n IH]; intros app i only js Hn Hargs Hsub;
    rewrite scan_from_unfold; case_bool_decide as Hle; simpl; try lia.
  - split; [done|]. exists js. split; [done|].
    by replace (i `min` _argc app)%nat with (_argc app) in Hsub by lia.
  - split; [done|]. exists js. split; [done|].
    by replace (i `min` _argc app)%nat with (_argc app) in Hsub by lia.
  - pose proof (step_args app i only) as Hstep.
    pose proof (step_argc app i only) as Hlen.
    replace (i `min` _argc app)%nat with i in Hsub by lia.
    assert (Hgrow : ∀ i', (i < i')%nat →
              ∃ js', _args (app_of (step app i only)) = Some ((λ j, Ptr j 0) <$> js')
                     ∧ js' `sublist_of` seq 0 (i' `min` _argc app)).
    { intros i' Hi'.
      assert (Hseq : seq 0 (i' `min` _argc app) =
                     seq 0 i ++ [i] ++ seq (S i) (i' `min` _argc app - S i)).
      { replace (i' `min` _argc app)%nat
          with (i + (1 + (i' `min` _argc app - S i)))%nat at 1 by lia.
        rewrite seq_app. reflexivity. }
      destruct Hstep as [Hsame|[_ Happ]].
      - exists js. rewrite Hsame. split; [done|].
        rewrite Hseq. by apply sublist_inserts_r.
      - exists (js ++ [i]). rewrite Happ, Hargs. simpl.
        rewrite fmap_app. split; [done|].
        rewrite Hseq, app_assoc. apply sublist_inserts_r.
        by apply sublist_app. }
    destruct (step app i only) as [app1 i1 only1|o app1] eqn:Hs; simpl in *.
    + destruct (step_next _ _ _ _ _ _ _ _ _ Hs) as [_ Hlt].
      destruct (Hgrow i1 Hlt) as (js1 & Hargs1 & Hsub1).
      assert (Hc : _argc app1 = _argc app) by (unfold _argc; lia).
      destruct (IH app1 i1 only1 js1) as (Hl & js' & Hj & Hs');
        [lia|done|by rewrite Hc|].
      split; [lia|]. exists js'. by rewrite <- Hc.
    + destruct (Hgrow (S i)) as (js1 & Hargs1 & Hsub1); [lia|].
      split; [done|]. exists js1. split; [done|].
      etrans; [exact Hsub1|].
      replace (_argc app) with (S i `min` _argc app
                                + (_argc app - S i `min` _argc app))%nat at 2 by lia.
      rewrite seq_app. apply sublist_inserts_r. done.
Qed.

(** X11.  After any call of [cmdapp_run], successful or not,
    [cmdapp_getargs] returns a list (never the null pointer) whose entries
    point to the start of argv tokens, each token at most once and in argv
    order: the positional arguments the caller reads are a sub-sequence of
    the tokens of argv. *)
Theorem X11_positionals_are_argv_tokens_in_order app :
  ∃ js, cmdapp_getargs (cmdapp_run app).2 = Some ((λ j, Ptr j 0) <$> js)
        ∧ js `sublist_of` seq 0 (_argc app)
        ∧ positionals (cmdapp_run app).2
          `sublist_of` ((λ t, Some (cstring t)) <$> _argv (cmdapp_run app).2).
Proof.
  rewrite cmdapp_run_scan_from.
  destruct (scan_from_positional (_argc app) (with_args (Some []) app) 0 false [])
    as (Hlen & js & Hargs & Hsub).
  - unfold _argc. simpl. lia.
  - done.
  - apply sublist_nil_l.
  - exists js. unfold positionals, cmdapp_getargs. rewrite Hargs.
    split; [done|]. split; [done|]. simpl.
    rewrite <- deref_token_ptrs. unfold token_ptrs.
    apply fmap_sublist, fmap_sublist.
    simpl in Hlen. rewrite Hlen. exact Hsub.
Qed.

(** ** The scanner: tokens that are not recognized *)

(** X12.  `--help=anything` is handled as `--help`.  The long name is cut
    at the first '=' before it is compared, so a token `--help=v` (or
    `--version=v`) that a scan reaches while no option is registered under
    that long name ends the scan as the bare token does, with the '=' of
    the token overwritten on the way: if every option has a long name,
    `--version=v` prints the version and returns [EXIT_SUCCESS], and
    `--help=v` calls [cmdapp_print_help] and returns [EXIT_SUCCESS] when
    the registry is empty or holds at least [argc] options, and has
    undefined behaviour (the help reads beyond the registry) when it holds
    fewer; if some option has no long name, the lookup is a [strcmp] on
    the null pointer. *)
Theorem X12_help_with_a_value app0 app i (request v : cbuf) :
  reaches (with_args (Some []) app0) 0 false app i false →
  _argv app !! i = Some (request ++ "="%char :: v) →
  request = tok "--help" ∨ request = tok "--version" →
  no_option_named app (drop 2 request) →
  cmdapp_run app0 =
    (if bool_decide (all_long_names app)
     then if bool_decide (request = tok "--help")
          then if bool_decide (help_defined app) then Help else Undefined
          else Version
     else Undefined,
     with_argv (<[i := request ++ NUL :: v]> (_argv app)) app).
Proof.
  intros Hr Hi Hreq Hno.
  assert (Hchr : strchr (request ++ "="%char :: v) "="%char = Some (length request)).
  { destruct Hreq as [-> | ->]; apply strchr_app;
      apply (bool_decide_unpack _); reflexivity. }
  assert (Hnul : NUL ∉ request).
  { destruct Hreq as [-> | ->]; apply (bool_decide_unpack _); reflexivity. }
  rewrite (cmdapp_run_reaches _ _ _ _ _ _ _ Hr), scan_from_unfold.
  rewrite bool_decide_false.
  2: { apply lookup_lt_Some in Hi. unfold _argc. lia. }
  assert (Hend : IS_END_OF_FLAGS (request ++ "="%char :: v) = false)
    by (by destruct Hreq as [-> | ->]).
  assert (Hlong : IS_LONG_FLAG (request ++ "="%char :: v) = true)
    by (by destruct Hreq as [-> | ->]).
  rewrite (step_long_value _ _ _ app i _ _ Hi Hend Hlong Hchr).
  simpl. rewrite insert_app_NUL.
  pose proof (cmdapp_search_unnamed _ _ Hno) as Hs.
  unfold cmdapp_search in *.
  rewrite (search_long_cstring _ _ (drop 2 request)), Hs.
  2: { destruct Hreq as [-> | ->]; reflexivity. }
  destruct (bool_decide (all_long_names app)); [|done].
  unfold strcmp_eq. rewrite !cstring_app_NUL by done.
  destruct Hreq as [-> | ->]; simpl;
    by destruct (bool_decide (help_defined app)).
Qed.

(** X13.  A single-dash token whose first character is no registered short
    name fails the scan in the short-argument branch with "Unrecognized
    command line option", naming the dash and that character, whatever
    follows in the token or in argv.  A lone `-` is such a token: its
    character is the string terminator, so it is an error and never a
    positional argument unless an option was registered with the short
    name 0. *)
Theorem X13_unknown_short_option app0 app i current :
  reaches (with_args (Some []) app0) 0 false app i false →
  _argv app !! i = Some current →
  IS_SHORT_FLAG current = true → IS_LONG_FLAG current = false →
  truthy (Z.lor (_mode app) CMDAPP_MODE_SHORTARG) = true →
  Forall (λ a, shorto (result a) ≠ byte current 1) (_start app) →
  cmdapp_run app0 = (Error (unrecognized_option [dash; byte current 1]), app).
Proof.
  intros Hr Hi Hshort Hlong Hmode Hnone.
  rewrite (cmdapp_run_reaches _ _ _ _ _ _ _ Hr), scan_from_unfold.
  rewrite bool_decide_false.
  2: { apply lookup_lt_Some in Hi. unfold _argc. lia. }
  unfold step.
  rewrite Hi, (IS_LONG_FLAG_false _ Hlong), Hlong, Hshort, Hmode.
  unfold short_arg, cmdapp_search.
  apply (search_short_Miss _ _ 0%nat) in Hnone. by rewrite Hnone.
Qed.


(** ** The scanner: what it does to the registry *)

Lemma or_flags_byte f bits :
  0 ≤ f < 256 →
  0 ≤ wrap8 (Z.lor f bits) < 256 ∧ Z.land (wrap8 (Z.lor f bits)) f = f.
Proof.
  intros Hf. unfold wrap8. split; [apply Z.mod_pos_bound; lia|].
  change 256 with (2 ^ 8) in *.
  apply Z.bits_inj'. intros n Hn. rewrite Z.land_spec.
  destruct (Z.lt_ge_cases n 8) as [Hlow|Hhigh].
  - rewrite Z.mod_pow2_bits_low, Z.lor_spec by lia.
    by destruct (Z.testbit f n), (Z.testbit bits n).
  - rewrite Z.mod_pow2_bits_high by lia. simpl.
    rewrite <- (Z.mod_small f (2 ^ 8)) by lia.
    by rewrite Z.mod_pow2_bits_high by lia.
Qed.

Lemma registry_flags_or_flags k bits app :
  registry_flags (or_flags k bits app) =
  alter (λ f, wrap8 (Z.lor f bits)) k (registry_flags app).
Proof.
  unfold registry_flags. simpl. apply list_fmap_alter.
  apply Forall_forall. done.
Qed.

Lemma registry_flags_with_argv argv app :
  registry_flags (with_argv argv app) = registry_flags app.
Proof. reflexivity. Qed.

(** A round sets [CMDOPT_EXISTS] in the flags of one option or leaves all
    flags alone. *)
Lemma step_flags app i only :
  registry_flags (app_of (step app i only)) = registry_flags app
  ∨ ∃ k, registry_flags (app_of (step app i only)) =
         alter (λ f, wrap8 (Z.lor f CMDOPT_EXISTS)) k (registry_flags app).
Proof.
  unfold step. destruct (_argv app !! i) as [current|]; [|by left].
  destruct only; [by left|].
  destruct (IS_END_OF_FLAGS current); [by left|].
  destruct (IS_LONG_FLAG current).
  { unfold long_flag. repeat case_match; simpl;
      rewrite ?registry_flags_or_flags, ?registry_flags_set_value,
        ?registry_flags_with_argv; eauto. }
  destruct (IS_SHORT_FLAG current); [|by left].
  destruct (truthy _).
  - unfold short_arg. repeat case_match; simpl;
      rewrite ?registry_flags_or_flags, ?registry_flags_set_value; eauto.
  - left. apply multi_flag_flags.
Qed.

Lemma flags_grow_refl fs : Forall (λ f, 0 ≤ f < 256) fs → flags_grow fs fs.
Proof.
  induction 1 as [|f fs Hf _ IH]; constructor; auto.
  split; [done|]. apply Z.land_diag.
Qed.

Lemma flags_grow_trans fs1 fs2 fs3 :
  flags_grow fs1 fs2 → flags_grow fs2 fs3 → flags_grow fs1 fs3.
Proof.
  intros H12. revert fs3.
  induction H12 as [|f1 f2 fs1 fs2 [_ H1] _ IH]; intros fs3 H23.
  - inversion H23. constructor.
  - inversion H23 as [|? f3 ? fs3' [Hb H2] Hrest]; subst.
    constructor; [|by apply IH]. split; [done|].
    rewrite <- H1 at 1. by rewrite Z.land_assoc, H2.
Qed.

Lemma flags_grow_byte fs fs' : flags_grow fs fs' → Forall (λ f, 0 ≤ f < 256) fs'.
Proof. induction 1 as [|f f' fs fs' [Hb _] _ IH]; constructor; auto. Qed.

Lemma step_flags_grow app i only :
  byte_flags app →
  flags_grow (registry_flags app) (registry_flags (app_of (step app i only))).
Proof.
  intros Hbyte. destruct (step_flags app i only) as [-> | [k ->]].
  - by apply flags_grow_refl.
  - apply Forall2_alter_r; [by apply flags_grow_refl|].
    intros f f' _ _ [Hb Hl].
    destruct (or_flags_byte f' CMDOPT_EXISTS Hb) as [Hb' Hl'].
    split; [done|]. rewrite <- Hl at 1. by rewrite Z.land_assoc, Hl'.
Qed.

Lemma scan_from_flags_grow n : ∀ app i only,
  (_argc app - i ≤ n)%nat → byte_flags app →
  flags_grow (registry_flags app) (registry_flags (scan_from app i only).2).
Proof.
  induction n as [|n IH]; intros app i only Hn Hbyte; rewrite scan_from_unfold;
    case_bool_decide as Hle; simpl; try (by apply flags_grow_refl); try lia.
  pose proof (step_flags_grow app i only Hbyte) as Hstep.
  destruct (step app i only) as [app1 i1 only1|o app1] eqn:Hs; simpl in *; [|done].
  destruct (step_next _ _ _ _ _ _ _ _ _ Hs) as [Hlen Hlt].
  eapply flags_grow_trans; [exact Hstep|].
  apply IH; [unfold _argc in *; lia|]. by eapply flags_grow_byte.
Qed.

(** X15.  A scan never clears a flag.  For options whose flags fit the
    byte they are stored in (as [cmdapp_set] leaves them), every bit that
    is set in the flags of an option before [cmdapp_run] is set after it,
    whatever the outcome, and the flags still fit a byte; so an option
    that was seen before the scan is seen after it. *)
Theorem X15_scan_never_clears_a_flag app :
  byte_flags app →
  flags_grow (registry_flags app) (registry_flags (cmdapp_run app).2)
  ∧ ∀ k o, option_at app k = Some o → seen CMDOPT_EXISTS o = true →
           ∃ o', option_at (cmdapp_run app).2 k = Some o'
                 ∧ seen CMDOPT_EXISTS o' = true.
Proof.
  intros Hbyte.
  assert (Hgrow : flags_grow (registry_flags app) (registry_flags (cmdapp_run app).2)).
  { rewrite cmdapp_run_scan_from.
    apply (scan_from_flags_grow (_argc (with_args (Some []) app))
             (with_args (Some []) app) 0 false); [lia|done]. }
  split; [done|]. intros k o Ho Hseen.
  unfold option_at in *. apply fmap_Some in Ho. destruct Ho as (a & Ha & ->).
  assert (Hf : registry_flags app !! k = Some (flags (result a))).
  { unfold registry_flags. by rewrite list_lookup_fmap, Ha. }
  destruct (Forall2_lookup_l _ _ _ _ _ Hgrow Hf) as (f' & Hf' & _ & Hland).
  unfold registry_flags in Hf'. rewrite list_lookup_fmap in Hf'.
  apply fmap_Some in Hf'. destruct Hf' as (a' & Ha' & ->).
  exists (result a'). rewrite Ha'. split; [done|].
  revert Hseen. unfold seen, truthy.
  rewrite !negb_true_iff, !bool_decide_eq_false. intros Hseen Hzero.
  apply Hseen. rewrite <- Hland.
  rewrite <- Z.land_assoc, (Z.land_comm (flags (result a))), Z.land_assoc, Hzero.
  apply Z.land_0_l.
Qed.

Lemma frame_alter f k app start :
  (∀ o, shorto (f o) = shorto o ∧ longo (f o) = longo o) →
  frame (with_start (alter (on_result f) k start) app) = frame (with_start start app).
Proof.
  intros Hf. unfold frame. simpl. f_equal.
  apply list_eq. intros j. rewrite !list_lookup_fmap.
  destruct (decide (j = k)) as [->|Hj].
  - rewrite list_lookup_alter_eq. destruct (start !! k) as [a|]; simpl; auto.
    destruct (Hf (result a)) as [-> ->]. done.
  - by rewrite list_lookup_alter_ne.
Qed.

Lemma frame_set_value k v app : frame (set_value k v app) = frame app.
Proof. unfold set_value. rewrite frame_alter by done. by destruct app. Qed.

Lemma frame_or_flags k bits app : frame (or_flags k bits app) = frame app.
Proof. unfold or_flags. rewrite frame_alter by done. by destruct app. Qed.

Lemma step_frame app i only : frame (app_of (step app i only)) = frame app.
Proof.
  assert (Hm : ∀ js a i0 j cur nx,
            frame (app_of (multi_flag js a i0 j cur nx)) = frame a).
  { induction js as [|c js IH]; intros a i0 j cur nx; simpl; auto.
    repeat case_match; simpl; rewrite ?IH, ?frame_set_value; auto. }
  unfold step, long_flag, short_arg.
  repeat case_match; simpl;
    rewrite ?Hm, ?frame_or_flags, ?frame_set_value; auto.
Qed.

Lemma scan_from_frame n : ∀ app i only,
  (_argc app - i ≤ n)%nat → frame (scan_from app i only).2 = frame app.
Proof.
  induction n as [|n IH]; intros app i only Hn; rewrite scan_from_unfold;
    case_bool_decide; simpl; auto; try lia.
  pose proof (step_frame app i only) as Hstep.
  destruct (step app i only) as [app1 i1 only1|o app1] eqn:Hs; simpl in *; auto.
  destruct (step_next _ _ _ _ _ _ _ _ _ Hs) as [Hlen Hlt].
  rewrite IH; [done|]. unfold _argc in *. lia.
Qed.

(** X16.  A scan writes only the [flags] and [value] fields of the
    options: whatever the argument vector and the outcome, [cmdapp_run]
    leaves the number of options, their order, their short and long names,
    descriptions and conflicts, the capacity and the mode as they were. *)
Theorem X16_scan_keeps_the_registry app :
  frame (cmdapp_run app).2 = frame app
  ∧ _length (cmdapp_run app).2 = _length app.
Proof.
  assert (Hframe : frame (cmdapp_run app).2 = frame app).
  { rewrite cmdapp_run_scan_from.
    by rewrite (scan_from_frame (_argc (with_args (Some []) app))) by lia. }
  split; [done|]. unfold frame in Hframe. injection Hframe as _ _ Hshape.
  unfold _length. apply (f_equal length) in Hshape.
  by rewrite !length_fmap in Hshape.
Qed.

End ScannerFacts.

(** ** [cmdapp_print_help] and the conflicts of [cmdapp_set] *)

Section HelpFacts.

Context (CMDOPT_TAKESARG : Z).

Local Abbreviation help_options := (help_options CMDOPT_TAKESARG).
Local Abbreviation cmdapp_print_help := (cmdapp_print_help CMDOPT_TAKESARG).

(** X17.  [cmdapp_print_help] runs its loop over the options up to
    [_argc], not up to the number of options.  With at least one option
    registered and more argv entries than options, it reads [_start]
    beyond the registered options: the call has no defined behaviour.
    `prog --help` with a single registered option is such a call. *)
Theorem X17_help_reads_beyond_the_registry info app :
  (0 < _length app)%nat → (_length app < _argc app)%nat →
  cmdapp_print_help info app = None.
Proof.
  intros Hpos Hless. unfold cmdapp_print_help.
  destruct (_argv app !! 0%nat) as [argv0|]; [|done].
  rewrite bool_decide_false by lia.
  rewrite (help_options_beyond CMDOPT_TAKESARG); [done|lia|]. unfold _length in *. lia.
Qed.

(** X18.  With at least one argv entry and no more argv entries than
    options, [cmdapp_print_help] is defined and lists the first [_argc]
    options only: the text is the one printed for the registry cut after
    [_argc] options, so the options registered later are missing from the
    help. *)
Theorem X18_help_lists_argc_options info app :
  (1 ≤ _argc app)%nat → (_argc app ≤ _length app)%nat →
  is_Some (cmdapp_print_help info app)
  ∧ cmdapp_print_help info app =
    cmdapp_print_help info (with_start (take (_argc app) (_start app)) app).
Proof.
  intros Hpos Hle. unfold cmdapp_print_help, _length, _argc in *. simpl.
  destruct (lookup_lt_is_Some_2 (_argv app) 0) as [argv0 Ha]; [lia|].
  rewrite Ha, length_take.
  rewrite !bool_decide_false by lia.
  destruct (help_options_take CMDOPT_TAKESARG (_start app) (length (_argv app)) 0)
    as [[text Htext] Hsame]; [lia|].
  rewrite Hsame by lia. rewrite Htext. split; [by eexists|done].
Qed.

End HelpFacts.

Lemma _argvlen_Some {A : Type} (arr : list (option A)) : ∀ n,
  _argvlen arr = Some n →
  ∃ entries rest, arr = (Some <$> entries) ++ None :: rest ∧ length entries = n.
Proof.
  induction arr as [|[x|] arr IH]; intros n; simpl; [done| |].
  - destruct (_argvlen arr) as [m|]; [|done]. intros [= <-].
    destruct (IH m eq_refl) as (entries & rest & -> & Hlen).
    exists (x :: entries), rest. split; [done|]. simpl. by rewrite Hlen.
  - intros [= <-]. by exists [], arr.
Qed.

Lemma _argvlen_no_null {A : Type} (entries : list A) :
  _argvlen (Some <$> entries) = None.
Proof. induction entries as [|x entries IH]; csimpl; [done|]. by rewrite IH. Qed.

(** X19.  The conflicts array of an option is documented as
    null-terminated, and [cmdapp_set] stores it so only for a null
    [conflicts] argument.  For an array argument it allocates and copies
    the entries before the terminator and not the terminator: the stored
    array holds exactly those entries, so counting it with [_argvlen] runs
    off its end. *)
Theorem X19_stored_conflicts_lack_the_terminator (arr stored : list (option nat)) :
  stored_conflicts (Some arr) = Some stored →
  (∃ entries rest, arr = stored ++ None :: rest ∧ stored = Some <$> entries)
  ∧ _argvlen stored = None
  ∧ (stored_conflicts None ≫= _argvlen) = Some 0%nat.
Proof.
  unfold stored_conflicts. intros Hst. apply fmap_Some in Hst.
  destruct Hst as (n & Hn & ->).
  destruct (_argvlen_Some arr n Hn) as (entries & rest & -> & Hlen).
  assert (Htake : take n ((Some <$> entries) ++ None :: rest) = Some <$> entries).
  { rewrite take_app_length'; [done|]. by rewrite length_fmap. }
  rewrite Htake. split; [by exists entries, rest|].
  split; [apply _argvlen_no_null|done].
Qed.


(** * Evaluations

    The statements above at the header values of [Sample], on small
    argument vectors. *)

(** ** C1 *)

(** `prog -v` and `prog --verbose` against the boolean option `-v`,
    `--verbose`: both scans fail and the option is not seen. *)
Lemma C1_boolean_option_rejected_witness :
  (run (verbose_app [tok "prog"; tok "--verbose"] Sample.SHORTARG 0)).1
  = Error (expects_an_argument (tok "--verbose"))
  ∧ flags <$> option_at
        (run (verbose_app [tok "prog"; tok "--verbose"] Sample.SHORTARG 0)).2 0
    = Some (wrap8 0)
  ∧ (run (verbose_app [tok "prog"; tok "-v"] Sample.SHORTARG 0)).1
    = (if truthy (Z.lor Sample.SHORTARG Sample.SHORTARG)
       then Error (expects_an_argument (tok "-v")) else Undefined)
  ∧ flags <$> option_at
        (run (verbose_app [tok "prog"; tok "-v"] Sample.SHORTARG 0)).2 0
    = Some (wrap8 0).
Proof.
  apply (C1_boolean_option_rejected Sample.TAKESARG Sample.EXISTS Sample.SHORTARG
           Sample.SHORTARG 0).
  discriminate.
Defined.

Lemma verbose_short_fails :
  run (verbose_app [tok "prog"; tok "-v"] Sample.SHORTARG 0)
  = (Error (expects_an_argument (tok "-v")),
     set_value 0 (Some (Ptr 1 2))
       (with_args (Some [Ptr 0 0])
          (verbose_app [tok "prog"; tok "-v"] Sample.SHORTARG 0))).
Proof. vm_compute. reflexivity. Qed.

(** ** C2 *)

(** The scan of `prog a b`: the program name is the first positional. *)
Lemma C2_program_name_is_positional :
  positionals (run (verbose_app [tok "prog"; tok "a"; tok "b"] Sample.SHORTARG 0)).2
  = [Some (tok "prog"); Some (tok "a"); Some (tok "b")].
Proof. vm_compute. reflexivity. Qed.

Lemma C2_plain_argv_all_positional_witness :
  run (verbose_app [tok "prog"; tok "a"; tok "b"] Sample.SHORTARG 0)
  = (Finished,
     with_args (Some (token_ptrs 0 3))
       (verbose_app [tok "prog"; tok "a"; tok "b"] Sample.SHORTARG 0))
  ∧ positionals (run (verbose_app [tok "prog"; tok "a"; tok "b"] Sample.SHORTARG 0)).2
    = (λ t, Some (cstring t)) <$> [tok "prog"; tok "a"; tok "b"].
Proof.
  apply (C2_plain_argv_all_positional Sample.TAKESARG Sample.EXISTS Sample.SHORTARG
           (verbose_app [tok "prog"; tok "a"; tok "b"] Sample.SHORTARG 0)).
  simpl. repeat constructor.
Defined.

(** ** C3 *)

(** C3 as stated fails: `--out=x`, then a scan of `prog y` against the same
    registry.  After the second scan the option is still seen and still
    bound, where the scan of `prog y` alone leaves it unseen and unbound. *)
Lemma C3_first_scan_leaks :
  seen Sample.EXISTS <$>
    option_at
      (scan2 (scan2 (out_app [] Sample.SHORTARG Sample.TAKESARG)
                [tok "prog"; tok "--out=x"]).2
         [tok "prog"; tok "y"]).2 0
  = Some true
  ∧ seen Sample.EXISTS <$>
      option_at
        (scan2 (out_app [] Sample.SHORTARG Sample.TAKESARG) [tok "prog"; tok "y"]).2 0
    = Some false
  ∧ value <$>
      option_at
        (scan2 (scan2 (out_app [] Sample.SHORTARG Sample.TAKESARG)
                  [tok "prog"; tok "--out=x"]).2
           [tok "prog"; tok "y"]).2 0
    = Some (Some (Ptr 1 6))
  ∧ value <$>
      option_at
        (scan2 (out_app [] Sample.SHORTARG Sample.TAKESARG) [tok "prog"; tok "y"]).2 0
    = Some None.
Proof. vm_compute. repeat split; reflexivity. Qed.

Lemma C3_second_scan_same_positionals_witness :
  (scan2 (scan2 (out_app [] Sample.SHORTARG Sample.TAKESARG)
            [tok "prog"; tok "--out=x"]).2
     [tok "prog"; tok "y"]).1
  = (scan2 (out_app [] Sample.SHORTARG Sample.TAKESARG) [tok "prog"; tok "y"]).1
  ∧ positionals
      (scan2 (scan2 (out_app [] Sample.SHORTARG Sample.TAKESARG)
                [tok "prog"; tok "--out=x"]).2
         [tok "prog"; tok "y"]).2
    = positionals
        (scan2 (out_app [] Sample.SHORTARG Sample.TAKESARG) [tok "prog"; tok "y"]).2.
Proof.
  pose proof (C3_second_scan_same_positionals Sample.TAKESARG Sample.EXISTS
                Sample.SHORTARG (out_app [] Sample.SHORTARG Sample.TAKESARG)
                [tok "prog"; tok "--out=x"] [tok "prog"; tok "y"]) as H.
  simpl in H. destruct H as (Hout & _ & _ & Hpos & _); [discriminate|].
  split; assumption.
Defined.

(** ** C4 *)

(** C4 as stated fails: `prog a --out=x --bogus` fails at `--bogus`, and
    the caller still reads the positional list `prog`, `a` and finds the
    option `--out` seen and bound to `x`. *)
Lemma C4_failed_scan_leaves_partial_state :
  (run (out_app [tok "prog"; tok "a"; tok "--out=x"; tok "--bogus"]
          Sample.SHORTARG Sample.TAKESARG)).1
  = Error (unrecognized_option (tok "--bogus"))
  ∧ cmdapp_getargs
      (run (out_app [tok "prog"; tok "a"; tok "--out=x"; tok "--bogus"]
              Sample.SHORTARG Sample.TAKESARG)).2
    = Some [Ptr 0 0; Ptr 1 0]
  ∧ positionals
      (run (out_app [tok "prog"; tok "a"; tok "--out=x"; tok "--bogus"]
              Sample.SHORTARG Sample.TAKESARG)).2
    = [Some (tok "prog"); Some (tok "a")]
  ∧ seen Sample.EXISTS <$>
      option_at
        (run (out_app [tok "prog"; tok "a"; tok "--out=x"; tok "--bogus"]
                Sample.SHORTARG Sample.TAKESARG)).2 0
    = Some true
  ∧ value_string
      (run (out_app [tok "prog"; tok "a"; tok "--out=x"; tok "--bogus"]
              Sample.SHORTARG Sample.TAKESARG)).2 0
    = Some (tok "x").
Proof. vm_compute. repeat split; reflexivity. Qed.

Lemma C4_error_returns_at_once_keeps_state_witness :
  exit_status
    (run (out_app [tok "prog"; tok "a"; tok "--out=x"; tok "--bogus"]
            Sample.SHORTARG Sample.TAKESARG)).1
  = Some EXIT_FAILURE
  ∧ is_Some
      (cmdapp_getargs
         (run (out_app [tok "prog"; tok "a"; tok "--out=x"; tok "--bogus"]
                 Sample.SHORTARG Sample.TAKESARG)).2).
Proof.
  destruct (C4_error_returns_at_once_keeps_state Sample.TAKESARG Sample.EXISTS
              Sample.SHORTARG
              (out_app [tok "prog"; tok "a"; tok "--out=x"; tok "--bogus"]
                 Sample.SHORTARG Sample.TAKESARG)
              (unrecognized_option (tok "--bogus")))
    as (Hexit & app1 & i1 & only1 & _ & _ & _ & Hargs & _).
  - vm_compute. reflexivity.
  - split; assumption.
Defined.

(** ** C5 *)

Lemma C5_long_option_inline_value_witness :
  (∃ app', step1 (with_args (Some [Ptr 0 0])
                    (out_app [tok "prog"; tok "--out=file.txt"]
                       Sample.SHORTARG Sample.TAKESARG)) 1 false
           = Next app' 2 false
           ∧ value <$> option_at app' 0 = Some (Some (Ptr 1 6))
           ∧ value_string app' 0 = Some (tok "file.txt"))
  ∧ (run (quiet_out_app [tok "prog"; tok "--out=file.txt"]
            Sample.SHORTARG 0 Sample.TAKESARG)).1 = Undefined.
Proof.
  split.
  - destruct (C5_long_option_inline_value Sample.TAKESARG Sample.EXISTS
                Sample.SHORTARG
                (out_app [tok "prog"; tok "--out=file.txt"]
                   Sample.SHORTARG Sample.TAKESARG)
                (with_args (Some [Ptr 0 0])
                   (out_app [tok "prog"; tok "--out=file.txt"]
                      Sample.SHORTARG Sample.TAKESARG))
                1 0 (Cmdopt "o" (Some (tok "out")) 1 None)
                (tok "out") (tok "=file.txt"))
      as (Hfound & _).
    + eapply reaches_round; [unfold _argc; simpl; lia|reflexivity|apply reaches_here].
    + reflexivity.
    + discriminate.
    + apply (bool_decide_unpack _). reflexivity.
    + apply (bool_decide_unpack _). reflexivity.
    + right. eexists. reflexivity.
    + reflexivity.
    + eexists. split; reflexivity.
    + reflexivity.
    + destruct Hfound as (_ & _ & Hbind); [intros j o' Hj; lia|].
      exact (Hbind (tok "file.txt") eq_refl).
  - destruct (C5_long_option_inline_value Sample.TAKESARG Sample.EXISTS
                Sample.SHORTARG
                (quiet_out_app [tok "prog"; tok "--out=file.txt"]
                   Sample.SHORTARG 0 Sample.TAKESARG)
                (with_args (Some [Ptr 0 0])
                   (quiet_out_app [tok "prog"; tok "--out=file.txt"]
                      Sample.SHORTARG 0 Sample.TAKESARG))
                1 1 (Cmdopt "o" (Some (tok "out")) 1 None)
                (tok "out") (tok "=file.txt"))
      as (_ & Hnull).
    + eapply reaches_round; [unfold _argc; simpl; lia|reflexivity|apply reaches_here].
    + reflexivity.
    + discriminate.
    + apply (bool_decide_unpack _). reflexivity.
    + apply (bool_decide_unpack _). reflexivity.
    + right. eexists. reflexivity.
    + reflexivity.
    + eexists. split; reflexivity.
    + reflexivity.
    + apply (Hnull 0%nat). split.
      * eexists. split; reflexivity.
      * intros j o' Hj. lia.
Defined.

(** `prog --out=file.txt` binds `file.txt`; `prog --out` fails. *)
Lemma out_with_inline_value :
  (run (out_app [tok "prog"; tok "--out=file.txt"] Sample.SHORTARG Sample.TAKESARG)).1
  = Finished
  ∧ value_string
      (run (out_app [tok "prog"; tok "--out=file.txt"] Sample.SHORTARG Sample.TAKESARG)).2 0
    = Some (tok "file.txt")
  ∧ (run (out_app [tok "prog"; tok "--out"] Sample.SHORTARG Sample.TAKESARG)).1
    = Error (expects_an_argument (tok "--out")).
Proof. vm_compute. repeat split; reflexivity. Qed.

(** ** C6 *)

Lemma C6_short_option_binds_next_token_witness :
  ∃ app', step1 (out_app [tok "prog"; tok "-ofile"] Sample.SHORTARG Sample.TAKESARG)
            1 false
          = Return (Error (expects_an_argument (tok "-o"))) app'
          ∧ value <$> option_at app' 0 = Some (Some (Ptr 1 2)).
Proof.
  destruct (C6_short_option_binds_next_token Sample.TAKESARG Sample.EXISTS
              Sample.SHORTARG
              (out_app [tok "prog"; tok "-ofile"] Sample.SHORTARG Sample.TAKESARG)
              1 (tok "-ofile") 0 (Cmdopt "o" (Some (tok "out")) 1 None))
    as [_ Hfail]; try reflexivity.
  exact (Hfail eq_refl).
Defined.

(** `prog -ofile` fails although the value is in the token; with a further
    token, `prog -ofile x` binds `x` and drops `file`. *)
Lemma inline_short_value_is_dropped :
  (run (out_app [tok "prog"; tok "-ofile"] Sample.SHORTARG Sample.TAKESARG)).1
  = Error (expects_an_argument (tok "-o"))
  ∧ (run (out_app [tok "prog"; tok "-ofile"; tok "x"] Sample.SHORTARG Sample.TAKESARG)).1
    = Finished
  ∧ value_string
      (run (out_app [tok "prog"; tok "-ofile"; tok "x"] Sample.SHORTARG Sample.TAKESARG)).2 0
    = Some (tok "x")
  ∧ positionals
      (run (out_app [tok "prog"; tok "-ofile"; tok "x"] Sample.SHORTARG Sample.TAKESARG)).2
    = [Some (tok "prog")].
Proof. vm_compute. repeat split; reflexivity. Qed.

(** ** C7 *)

(** C7 as stated fails: a second `--` is a positional argument. *)
Lemma C7_second_marker_is_positional :
  (run (verbose_app [tok "prog"; tok "--"; tok "-x"; tok "--"] Sample.SHORTARG 0)).1
  = Finished
  ∧ cmdapp_getargs
      (run (verbose_app [tok "prog"; tok "--"; tok "-x"; tok "--"] Sample.SHORTARG 0)).2
    = Some [Ptr 0 0; Ptr 2 0; Ptr 3 0]
  ∧ positionals
      (run (verbose_app [tok "prog"; tok "--"; tok "-x"; tok "--"] Sample.SHORTARG 0)).2
    = [Some (tok "prog"); Some (tok "-x"); Some (tok "--")].
Proof. vm_compute. repeat split; reflexivity. Qed.

Lemma C7_end_of_options_marker_witness :
  run (verbose_app [tok "prog"; tok "--"; tok "-x"; tok "--"] Sample.SHORTARG 0)
  = (Finished,
     with_args (Some ([Ptr 0 0] ++ token_ptrs 2 2))
       (with_args (Some [Ptr 0 0])
          (verbose_app [tok "prog"; tok "--"; tok "-x"; tok "--"] Sample.SHORTARG 0)))
  ∧ positionals
      (run (verbose_app [tok "prog"; tok "--"; tok "-x"; tok "--"] Sample.SHORTARG 0)).2
    = [Some (tok "prog")] ++ [Some (tok "-x"); Some (tok "--")].
Proof.
  apply (C7_end_of_options_marker Sample.TAKESARG Sample.EXISTS Sample.SHORTARG
           (verbose_app [tok "prog"; tok "--"; tok "-x"; tok "--"] Sample.SHORTARG 0)
           (with_args (Some [Ptr 0 0])
              (verbose_app [tok "prog"; tok "--"; tok "-x"; tok "--"] Sample.SHORTARG 0))
           1 (tok "--")).
  - eapply reaches_round; [unfold _argc; simpl; lia|reflexivity|apply reaches_here].
  - reflexivity.
  - reflexivity.
Defined.

(** ** C8 *)

(** The multi-flag branch (mode and constant both zero) on
    `prog -abc x y z w`: `a` is looked up three times and bound to `x`,
    the loop index moves three tokens on, `y` and `z` are skipped, `w` is
    positional; `b` and `c` are never looked up and nothing is seen. *)
Lemma multi_flag_branch_on_a_cluster :
  cmdapp_run Sample.TAKESARG Sample.EXISTS 0
    (abc_app [tok "prog"; tok "-abc"; tok "x"; tok "y"; tok "z"; tok "w"] 0 0 0 0)
  = (Finished,
     set_value 0 (Some (Ptr 2 0))
       (with_args (Some [Ptr 0 0; Ptr 5 0])
          (abc_app [tok "prog"; tok "-abc"; tok "x"; tok "y"; tok "z"; tok "w"]
             0 0 0 0))).
Proof. vm_compute. reflexivity. Qed.

(** ** C9 *)

Lemma C9_help_version_short_circuit_witness :
  run (verbose_app [tok "prog"; tok "--help"] Sample.SHORTARG 0)
  = (Undefined,
     with_args (Some [Ptr 0 0])
       (verbose_app [tok "prog"; tok "--help"] Sample.SHORTARG 0))
  ∧ run (abc_app [tok "prog"; tok "--help"; tok "--bogus"] Sample.SHORTARG 0 0 0)
    = (Help,
       with_args (Some [Ptr 0 0])
         (abc_app [tok "prog"; tok "--help"; tok "--bogus"] Sample.SHORTARG 0 0 0)).
Proof.
  split.
  - destruct (C9_help_version_short_circuit Sample.TAKESARG Sample.EXISTS
                Sample.SHORTARG
                (verbose_app [tok "prog"; tok "--help"] Sample.SHORTARG 0)
                (with_args (Some [Ptr 0 0])
                   (verbose_app [tok "prog"; tok "--help"] Sample.SHORTARG 0))
                1 (tok "--help"))
      as (Hunnamed & _).
    + eapply reaches_round; [unfold _argc; simpl; lia|reflexivity|apply reaches_here].
    + reflexivity.
    + left. reflexivity.
    + destruct Hunnamed as (Hrun & _).
      * repeat constructor. intros s [= <-]. discriminate.
      * rewrite Hrun. vm_compute. reflexivity.
  - destruct (C9_help_version_short_circuit Sample.TAKESARG Sample.EXISTS
                Sample.SHORTARG
                (abc_app [tok "prog"; tok "--help"; tok "--bogus"]
                   Sample.SHORTARG 0 0 0)
                (with_args (Some [Ptr 0 0])
                   (abc_app [tok "prog"; tok "--help"; tok "--bogus"]
                      Sample.SHORTARG 0 0 0))
                1 (tok "--help"))
      as (Hunnamed & _).
    + eapply reaches_round; [unfold _argc; simpl; lia|reflexivity|apply reaches_here].
    + reflexivity.
    + left. reflexivity.
    + destruct Hunnamed as (Hrun & _).
      * repeat constructor; intros s [= <-]; discriminate.
      * rewrite Hrun. vm_compute. reflexivity.
Defined.

(** `prog x --help --bogus` with three options: the help is printed,
    `--bogus` is never looked at.  With one option the same command line
    makes the help read three entries beyond the registry. *)
Lemma help_stops_the_scan :
  run (abc_app [tok "prog"; tok "x"; tok "--help"] Sample.SHORTARG 0 0 0)
  = (Help,
     with_args (Some [Ptr 0 0; Ptr 1 0])
       (abc_app [tok "prog"; tok "x"; tok "--help"] Sample.SHORTARG 0 0 0))
  ∧ (run (abc_app [tok "prog"; tok "--help"; tok "--bogus"] Sample.SHORTARG 0 0 0)).1
    = Help
  ∧ (run (verbose_app [tok "prog"; tok "x"; tok "--help"; tok "--bogus"]
            Sample.SHORTARG 0)).1
    = Undefined
  ∧ (run (verbose_app [tok "prog"; tok "--version"; tok "--bogus"]
            Sample.SHORTARG 0)).1
    = Version
  ∧ (run (cmdapp_init [tok "prog"; tok "--help"] Sample.SHORTARG demo_info)).1
    = Help.
Proof. vm_compute. repeat split; reflexivity. Qed.

(** ** C10 *)


(** ** The further properties *)

Lemma X3_earlier_handles_stay_witness :
  cmdapp_search
    (cmdapp_set (out_app [] Sample.SHORTARG Sample.TAKESARG) "v"%char
       (Some (tok "verbose")) 0 None (tok "explain"))
    "o"%char None
  = Hit 0
  ∧ option_at
      (cmdapp_set (out_app [] Sample.SHORTARG Sample.TAKESARG) "v"%char
         (Some (tok "verbose")) 0 None (tok "explain")) 0
    = option_at (out_app [] Sample.SHORTARG Sample.TAKESARG) 0.
Proof.
  apply (X3_earlier_handles_stay (out_app [] Sample.SHORTARG Sample.TAKESARG)
           "o"%char None 0).
  reflexivity.
Defined.

Lemma X7_cmdapp_run_defined_witness :
  (run (abc_app [tok "prog"; tok "--help"; tok "x"] Sample.SHORTARG 0 0 0)).1
  ≠ Undefined
  ∧ ∃ status,
      exit_status
        (run (abc_app [tok "prog"; tok "--help"; tok "x"] Sample.SHORTARG 0 0 0)).1
      = Some status
      ∧ (status = EXIT_SUCCESS ∨ status = EXIT_FAILURE).
Proof.
  apply (X7_cmdapp_run_defined Sample.TAKESARG Sample.EXISTS Sample.SHORTARG
           (abc_app [tok "prog"; tok "--help"; tok "x"] Sample.SHORTARG 0 0 0)).
  - discriminate.
  - discriminate.
  - repeat constructor; by eexists.
  - right. unfold _argc, _length. simpl. lia.
Defined.

Lemma X8_no_scan_refuses_an_argument_witness :
  (run (verbose_app [tok "prog"; tok "--verbose=x"] Sample.SHORTARG 0)).1
  ≠ Error (does_not_take_arguments (tok "--verbose"))
  ∧ (run (verbose_app [tok "prog"; tok "--verbose=x"] Sample.SHORTARG 0)).1
    = Finished.
Proof.
  split.
  - apply (X8_no_scan_refuses_an_argument Sample.TAKESARG Sample.EXISTS
             Sample.SHORTARG). discriminate.
  - reflexivity.
Defined.

Lemma X9_mode_is_ignored_witness :
  (run (with_mode 0 (verbose_app [tok "prog"; tok "-v"; tok "x"] Sample.SHORTARG 0))).1
  = (run (verbose_app [tok "prog"; tok "-v"; tok "x"] Sample.SHORTARG 0)).1
  ∧ (run (with_mode 0
            (verbose_app [tok "prog"; tok "-v"; tok "x"] Sample.SHORTARG 0))).2
    = with_mode 0
        (run (verbose_app [tok "prog"; tok "-v"; tok "x"] Sample.SHORTARG 0)).2.
Proof.
  apply (X9_mode_is_ignored Sample.TAKESARG Sample.EXISTS Sample.SHORTARG).
  discriminate.
Defined.


(** `prog --help=all x` with three options: help, and the token is cut at
    the '='. *)
Lemma X12_help_with_a_value_witness :
  run (abc_app [tok "prog"; tok "--help=all"; tok "x"] Sample.SHORTARG 0 0 0)
  = (Help,
     with_argv [tok "prog"; tok "--help" ++ NUL :: tok "all"; tok "x"]
       (with_args (Some [Ptr 0 0])
          (abc_app [tok "prog"; tok "--help=all"; tok "x"] Sample.SHORTARG 0 0 0))).
Proof.
  rewrite (X12_help_with_a_value Sample.TAKESARG Sample.EXISTS Sample.SHORTARG
           (abc_app [tok "prog"; tok "--help=all"; tok "x"] Sample.SHORTARG 0 0 0)
           (with_args (Some [Ptr 0 0])
              (abc_app [tok "prog"; tok "--help=all"; tok "x"] Sample.SHORTARG 0 0 0))
           1 (tok "--help") (tok "all")).
  - vm_compute. reflexivity.
  - eapply reaches_round; [unfold _argc; simpl; lia|reflexivity|apply reaches_here].
  - reflexivity.
  - left. reflexivity.
  - repeat constructor; intros s [= <-]; discriminate.
Defined.

(** With one option the same command line makes the help read beyond the
    registry; so does a plain `--help`. *)
Lemma help_beyond_the_registry :
  (run (verbose_app [tok "prog"; tok "--help=all"; tok "x"] Sample.SHORTARG 0)).1
  = Undefined
  ∧ (run (verbose_app [tok "prog"; tok "--help"] Sample.SHORTARG 0)).1 = Undefined.
Proof. vm_compute. repeat split; reflexivity. Qed.

(** `prog -`: the lone dash is an unrecognized option. *)
Lemma X13_unknown_short_option_witness :
  run (verbose_app [tok "prog"; tok "-"] Sample.SHORTARG 0)
  = (Error (unrecognized_option [dash; NUL]),
     with_args (Some [Ptr 0 0])
       (verbose_app [tok "prog"; tok "-"] Sample.SHORTARG 0)).
Proof.
  apply (X13_unknown_short_option Sample.TAKESARG Sample.EXISTS Sample.SHORTARG
           (verbose_app [tok "prog"; tok "-"] Sample.SHORTARG 0)
           (with_args (Some [Ptr 0 0])
              (verbose_app [tok "prog"; tok "-"] Sample.SHORTARG 0))
           1 (tok "-")).
  - eapply reaches_round; [unfold _argc; simpl; lia|reflexivity|apply reaches_here].
  - reflexivity.
  - reflexivity.
  - reflexivity.
  - reflexivity.
  - repeat constructor. discriminate.
Defined.


(** An option registered as already seen stays seen through a scan. *)
Lemma X15_scan_never_clears_a_flag_witness :
  flags_grow
    (registry_flags (out_app [tok "prog"; tok "y"] Sample.SHORTARG 3))
    (registry_flags (run (out_app [tok "prog"; tok "y"] Sample.SHORTARG 3)).2)
  ∧ ∃ o', option_at (run (out_app [tok "prog"; tok "y"] Sample.SHORTARG 3)).2 0
          = Some o'
          ∧ seen Sample.EXISTS o' = true.
Proof.
  destruct (X15_scan_never_clears_a_flag Sample.TAKESARG Sample.EXISTS
              Sample.SHORTARG (out_app [tok "prog"; tok "y"] Sample.SHORTARG 3))
    as [Hgrow Hseen].
  - repeat constructor; by vm_compute.
  - split; [exact Hgrow|].
    exact (Hseen 0%nat (Cmdopt "o" (Some (tok "out")) 3 None) eq_refl eq_refl).
Defined.

(** `prog --help` with the single option `-v`: the loop of the help reads
    a second option. *)
Lemma X17_help_reads_beyond_the_registry_witness :
  cmdapp_print_help Sample.TAKESARG demo_info
    (verbose_app [tok "prog"; tok "--help"] Sample.SHORTARG 0)
  = None.
Proof.
  apply X17_help_reads_beyond_the_registry; unfold _length, _argc; simpl; lia.
Defined.

(** `prog --help` with the options `-a`, `-b`, `-c`: the help is the help
    of `-a`, `-b`. *)
Lemma X18_help_lists_argc_options_witness :
  is_Some
    (cmdapp_print_help Sample.TAKESARG demo_info
       (abc_app [tok "prog"; tok "--help"] Sample.SHORTARG 0 0 0))
  ∧ cmdapp_print_help Sample.TAKESARG demo_info
      (abc_app [tok "prog"; tok "--help"] Sample.SHORTARG 0 0 0)
    = cmdapp_print_help Sample.TAKESARG demo_info
        (with_start
           (take 2 (_start (abc_app [tok "prog"; tok "--help"] Sample.SHORTARG 0 0 0)))
           (abc_app [tok "prog"; tok "--help"] Sample.SHORTARG 0 0 0)).
Proof.
  apply (X18_help_lists_argc_options Sample.TAKESARG demo_info
           (abc_app [tok "prog"; tok "--help"] Sample.SHORTARG 0 0 0));
    unfold _length, _argc; simpl; lia.
Defined.

Lemma help_of_three_options :
  String.string_of_list_ascii <$>
    cmdapp_print_help Sample.TAKESARG demo_info
      (abc_app [tok "prog"; tok "--help"] Sample.SHORTARG 0 0 0)
  = Some
      (String.string_of_list_ascii
         (tok "Usage: prog [OPTION]... ARG..." ++ [newline; newline]
          ++ tok "demo program" ++ [newline; newline]
          ++ tok "Options: " ++ [newline]
          ++ tok "                    all" ++ [carriage_return]
          ++ tok "  -a, --all=ARG" ++ [newline]
          ++ tok "                    brief" ++ [carriage_return]
          ++ tok "  -b, --brief=ARG" ++ [newline])).
Proof. vm_compute. reflexivity. Qed.

Lemma X19_stored_conflicts_lack_the_terminator_witness :
  (∃ entries rest,
      [Some 1%nat; Some 2%nat; None] = [Some 1%nat; Some 2%nat] ++ None :: rest
      ∧ [Some 1%nat; Some 2%nat] = Some <$> entries)
  ∧ _argvlen [Some 1%nat; Some 2%nat] = None
  ∧ (stored_conflicts None ≫= _argvlen) = Some 0%nat.
Proof.
  apply (X19_stored_conflicts_lack_the_terminator [Some 1%nat; Some 2%nat; None]).
  reflexivity.
Defined.
